(** * AI-RPG: directive interpretation and combat resolution (src/game.py)

    A shallow embedding of the class [AITextRPG] of src/game.py.

    - Python [int] is [Z]; [//] is [Z.div] (floor division).
    - Python [str] is [string]; every character is one code point below 256
      (Latin-1), which fixes what [lower], [strip], [\d] and [\s] do.
    - The dictionaries of the program are records with the fields the code
      reads; numeric fields hold integers, so no [KeyError] and no type
      error on a field is modelled.
    - [self] is the record [Game].  The console, the random generator and
      the language model are outside the program: what was printed and how
      many random words, model replies and input lines were consumed is kept
      in [Machine], the values themselves come from three oracles, which are
      the Variables of the section [Program].  End of input is not modelled.
    - [random.random()] is a multiple of 2^-53 and is compared as an exact
      rational.  The literals 0.25 and 0.5 are exact as floats; the 0.6 of
      the reward is the float [float_0_6].  The chance to flee,
      [0.6 + turn_count / 100], is computed on exact rationals, without the
      rounding of the float sum.
    - A Python exception ends the computation with [Exn], carrying the state
      at the point where it was raised.  Nothing in [game_loop] catches the
      exceptions modelled here, so a round that raises ends the session.

    The file has the embedding first and the properties after it. *)

From Stdlib Require Import ZArith QArith List String Ascii Bool Lia DecimalString.
Import ListNotations.
Open Scope string_scope.
Open Scope Z_scope.

(** ** Python string operations *)

Module Py.

Definition nl : string := String "010"%char EmptyString.
Definition esc : string := String "027"%char EmptyString.

(** [str.isspace] on one code point below 256; also the class [\s]. *)
Definition is_space (c : ascii) : bool :=
  let n := N_of_ascii c in
  ((9 <=? n) && (n <=? 13))%N || ((28 <=? n) && (n <=? 32))%N
  || (n =? 133)%N || (n =? 160)%N.

(** The class [\d]. *)
Definition is_digit (c : ascii) : bool :=
  let n := N_of_ascii c in ((48 <=? n) && (n <=? 57))%N.

Definition lower_char (c : ascii) : ascii :=
  let n := N_of_ascii c in
  if ((65 <=? n) && (n <=? 90))%N
     || (((192 <=? n) && (n <=? 222))%N && negb (n =? 215)%N)
  then ascii_of_N (n + 32) else c.

(** [s.lower()] *)
Fixpoint lower (s : string) : string :=
  match s with
  | EmptyString => EmptyString
  | String c r => String (lower_char c) (lower r)
  end.

(** [s.lstrip()] *)
Fixpoint lstrip (s : string) : string :=
  match s with
  | EmptyString => EmptyString
  | String c r => if is_space c then lstrip r else s
  end.

(** [s.rstrip()] *)
Fixpoint rstrip (s : string) : string :=
  match s with
  | EmptyString => EmptyString
  | String c r =>
      match rstrip r with
      | EmptyString => if is_space c then EmptyString else String c EmptyString
      | r' => String c r'
      end
  end.

(** [s.strip()] *)
Definition strip (s : string) : string := rstrip (lstrip s).

(** [s.startswith(p)] *)
Definition startswith (s p : string) : bool := String.prefix p s.

(** [sub in s] *)
Fixpoint contains (sub s : string) : bool :=
  String.prefix sub s ||
  match s with
  | EmptyString => false
  | String _ r => contains sub r
  end.

(** [s[n:]] for [n >= 0] *)
Fixpoint slice_from (n : nat) (s : string) : string :=
  match n, s with
  | O, _ => s
  | S _, EmptyString => EmptyString
  | S k, String _ r => slice_from k r
  end.

Fixpoint rev_acc (acc s : string) : string :=
  match s with
  | EmptyString => acc
  | String c r => rev_acc (String c acc) r
  end.

Definition rev (s : string) : string := rev_acc EmptyString s.

(** [s.split(sep)] for a non-empty [sep]: the occurrences of [sep] are
    found left to right and do not overlap.  [skip] counts the characters
    of a separator that was just matched and are still to be passed over;
    [cur] is the current piece, reversed. *)
Fixpoint split_go (sep : string) (skip : nat) (cur : string) (s : string)
  : list string :=
  match s with
  | EmptyString => [rev cur]
  | String c r =>
      match skip with
      | S k => split_go sep k cur r
      | O =>
          if String.prefix sep s
          then rev cur :: split_go sep (String.length sep - 1) EmptyString r
          else split_go sep O (String c cur) r
      end
  end.

Definition split (sep s : string) : list string :=
  split_go sep O EmptyString s.

(** [s.split(c, 1)] for a one-character separator: the text before the first
    [c] and, when there is one, the text after it. *)
Fixpoint split1_char (c : ascii) (s : string) : string * option string :=
  match s with
  | EmptyString => (EmptyString, None)
  | String d r =>
      if Ascii.eqb c d then (EmptyString, Some r)
      else let '(a, b) := split1_char c r in (String d a, b)
  end.

(** ["".join(parts)] *)
Definition join (parts : list string) : string := String.concat "" parts.

(** [sep * n] *)
Fixpoint repeat_str (sep : string) (n : nat) : string :=
  match n with
  | O => EmptyString
  | S k => sep ++ repeat_str sep k
  end.

(** [str(n)] and the [{n}] of an f-string, for an integer *)
Definition str_of_Z (n : Z) : string := NilZero.string_of_int (Z.to_int n).

(** The longest run of digits at the head of [s], and the rest. *)
Fixpoint span_digits (s : string) : string * string :=
  match s with
  | EmptyString => (EmptyString, EmptyString)
  | String c r =>
      if is_digit c
      then let '(d, t) := span_digits r in (String c d, t)
      else (EmptyString, s)
  end.

(** [re.search(r'\d+', s)]: the match is the leftmost digit, extended
    greedily; [None] when [s] has no digit. *)
Fixpoint search_digits (s : string) : option string :=
  match s with
  | EmptyString => None
  | String c r =>
      if is_digit c then Some (fst (span_digits s)) else search_digits r
  end.

(** [re.search(r'\+(\d+)', s)], group 1: the digits after the leftmost
    ["+"] that is followed by a digit. *)
Fixpoint search_plus_digits (s : string) : option string :=
  match s with
  | EmptyString => None
  | String c r =>
      if Ascii.eqb c "+"
      then match fst (span_digits r) with
           | EmptyString => search_plus_digits r
           | d => Some d
           end
      else search_plus_digits r
  end.

(** [int(d)] for a string of digits, from the left, [acc] being the value
    of the digits already read *)
Fixpoint int_of_digits_from (acc : Z) (d : string) : Z :=
  match d with
  | EmptyString => acc
  | String c r => int_of_digits_from (10 * acc + (Z.of_N (N_of_ascii c) - 48)) r
  end.

Definition int_of_digits (d : string) : Z := int_of_digits_from 0 d.

(** Every character of [s] satisfies [p]. *)
Fixpoint all_chars (p : ascii -> bool) (s : string) : bool :=
  match s with
  | EmptyString => true
  | String c r => p c && all_chars p r
  end.

(** [s] does not start with a digit. *)
Definition no_digit_ahead (s : string) : bool :=
  match s with
  | EmptyString => true
  | String c _ => negb (is_digit c)
  end.

(** The position just after the first occurrence of [sub] in [s], as the
    text that follows it. *)
Fixpoint after_first (sub s : string) : option string :=
  if String.prefix sub s
  then Some (slice_from (String.length sub) s)
  else match s with
       | EmptyString => None
       | String _ r => after_first sub r
       end.

(** [re.sub(r'<think>[\s\S]*?<\/think>\s*', '', s)]: each block from a
    start marker to the nearest end marker after it is removed together
    with the white space that follows; a start marker without an end marker
    stays.  [fuel] bounds the scan and [String.length s + 1] is always
    enough. *)
Fixpoint sub_think_go (fuel : nat) (s : string) : string :=
  match fuel with
  | O => s
  | S f =>
      match s with
      | EmptyString => EmptyString
      | String c r =>
          if String.prefix "<think>" s
          then match after_first "</think>" (slice_from 7 s) with
               | Some t =>
                   match lstrip t with
                   | EmptyString => EmptyString
                   | t' => sub_think_go f t'
                   end
               | None => s
               end
          else String c (sub_think_go f r)
      end
  end.

Definition sub_think (s : string) : string :=
  sub_think_go (S (String.length s)) s.

End Py.

Import Py.

(** ** Data model *)

(** class [Colors] *)
Module Colors.
Definition RED : string := esc ++ "[91m".
Definition GREEN : string := esc ++ "[92m".
Definition YELLOW : string := esc ++ "[93m".
Definition BLUE : string := esc ++ "[94m".
Definition MAGENTA : string := esc ++ "[95m".
Definition CYAN : string := esc ++ "[96m".
Definition WHITE : string := esc ++ "[97m".
Definition RESET : string := esc ++ "[0m".
Definition BOLD : string := esc ++ "[1m".
Definition GREY : string := esc ++ "[90m".
End Colors.

Record Item := mkItem {
  i_name : string;
  i_type : string;
  i_effect : string;
  i_description : string
}.

Record Enemy := mkEnemy {
  e_name : string;
  e_difficulty : Z;
  e_health : Z;
  e_attack : Z;
  e_defense : Z;
  e_description : string
}.

Record Location := mkLocation {
  l_name : string;
  l_type : string;
  l_description : string
}.

Record Character := mkCharacter {
  c_name : string;
  c_role : string;
  c_description : string
}.

Record Plot := mkPlot {
  plot_title : string;
  plot_description : string
}.

(** [self.world_data] *)
Record WorldData := mkWorld {
  w_name : string;
  w_description : string;
  w_theme : string;
  plots : list Plot;
  characters : list Character;
  locations : list Location;
  enemies : list Enemy;
  items : list Item
}.

(** [self.player] *)
Record Player := mkPlayer {
  p_name : string;
  health : Z;
  max_health : Z;
  attack : Z;
  defense : Z;
  inventory : list Item;
  skills : list string
}.

(** The attributes of an [AITextRPG] object, the client and the model name
    apart. *)
Record Game := mkGame {
  world_data : WorldData;
  knowledge_base : list string;
  player : Player;
  current_location : string;
  turn_count : Z;
  in_combat : bool;
  current_enemy : option Enemy
}.

(** The object together with what the run has printed and how much of each
    oracle it has consumed. *)
Record Machine := mkMachine {
  self : Game;
  stdout : list string;
  rand_pos : nat;
  llm_pos : nat;
  stdin_pos : nat
}.

Definition item_eq_dec (a b : Item) : {a = b} + {a <> b}.
Proof. decide equality; apply string_dec. Defined.

(** *** Field updates *)

Definition set_health (v : Z) (p : Player) : Player :=
  mkPlayer (p_name p) v (max_health p) (attack p) (defense p) (inventory p) (skills p).
Definition set_attack (v : Z) (p : Player) : Player :=
  mkPlayer (p_name p) (health p) (max_health p) v (defense p) (inventory p) (skills p).
Definition set_defense (v : Z) (p : Player) : Player :=
  mkPlayer (p_name p) (health p) (max_health p) (attack p) v (inventory p) (skills p).
Definition set_inventory (v : list Item) (p : Player) : Player :=
  mkPlayer (p_name p) (health p) (max_health p) (attack p) (defense p) v (skills p).

Definition set_e_health (v : Z) (e : Enemy) : Enemy :=
  mkEnemy (e_name e) (e_difficulty e) v (e_attack e) (e_defense e) (e_description e).

Definition set_locations (v : list Location) (w : WorldData) : WorldData :=
  mkWorld (w_name w) (w_description w) (w_theme w) (plots w) (characters w) v
          (enemies w) (items w).
Definition set_items (v : list Item) (w : WorldData) : WorldData :=
  mkWorld (w_name w) (w_description w) (w_theme w) (plots w) (characters w)
          (locations w) (enemies w) v.

Definition set_world_data (v : WorldData) (g : Game) : Game :=
  mkGame v (knowledge_base g) (player g) (current_location g) (turn_count g)
         (in_combat g) (current_enemy g).
Definition set_knowledge_base (v : list string) (g : Game) : Game :=
  mkGame (world_data g) v (player g) (current_location g) (turn_count g)
         (in_combat g) (current_enemy g).
Definition set_player (v : Player) (g : Game) : Game :=
  mkGame (world_data g) (knowledge_base g) v (current_location g) (turn_count g)
         (in_combat g) (current_enemy g).
Definition set_current_location (v : string) (g : Game) : Game :=
  mkGame (world_data g) (knowledge_base g) (player g) v (turn_count g)
         (in_combat g) (current_enemy g).
Definition set_turn_count (v : Z) (g : Game) : Game :=
  mkGame (world_data g) (knowledge_base g) (player g) (current_location g) v
         (in_combat g) (current_enemy g).
Definition set_in_combat (v : bool) (g : Game) : Game :=
  mkGame (world_data g) (knowledge_base g) (player g) (current_location g)
         (turn_count g) v (current_enemy g).
Definition set_current_enemy (v : option Enemy) (g : Game) : Game :=
  mkGame (world_data g) (knowledge_base g) (player g) (current_location g)
         (turn_count g) (in_combat g) v.

Definition set_self (v : Game) (m : Machine) : Machine :=
  mkMachine v (stdout m) (rand_pos m) (llm_pos m) (stdin_pos m).

(** ** Computations: state and exceptions *)

Inductive exn :=
| TypeError (msg : string)
| ValueError (msg : string)
| IndexError (msg : string)
| SystemExit (code : Z).

Inductive Res (A : Type) :=
| Val (a : A) (m : Machine)
| Exn (e : exn) (m : Machine).
Arguments Val {A} a m.
Arguments Exn {A} e m.

Definition M (A : Type) : Type := Machine -> Res A.

Definition ret {A} (a : A) : M A := fun m => Val a m.
Definition raise {A} (e : exn) : M A := fun m => Exn e m.
Definition bind {A B} (c : M A) (k : A -> M B) : M B :=
  fun m => match c m with
           | Val a m' => k a m'
           | Exn e m' => Exn e m'
           end.

Declare Scope py_scope.
Delimit Scope py_scope with py.
Notation "x <- c ;; k" := (bind c (fun x => k))
  (at level 61, c at next level, right associativity) : py_scope.
Notation "c ;; k" := (bind c (fun _ => k))
  (at level 61, right associativity) : py_scope.
Open Scope py_scope.

(** The machine a computation stops in, returned or raised. *)
Definition final {A} (r : Res A) : Machine :=
  match r with Val _ m => m | Exn _ m => m end.

Definition returned {A} (r : Res A) : bool :=
  match r with Val _ _ => true | Exn _ _ => false end.

Definition get_self : M Game := fun m => Val (self m) m.
Definition modify_self (f : Game -> Game) : M unit :=
  fun m => Val tt (set_self (f (self m)) m).
Definition modify_player (f : Player -> Player) : M unit :=
  modify_self (fun g => set_player (f (player g)) g).

(** [print(s)] *)
Definition print (s : string) : M unit :=
  fun m => Val tt (mkMachine (self m) (stdout m ++ [s]) (rand_pos m) (llm_pos m)
                             (stdin_pos m)).

(** [self.current_enemy[...]]: subscripting [None] raises. *)
Definition cur_enemy : M Enemy :=
  g <- get_self;;
  match current_enemy g with
  | Some e => ret e
  | None => raise (TypeError "'NoneType' object is not subscriptable")
  end.

Definition modify_enemy (f : Enemy -> Enemy) : M unit :=
  e <- cur_enemy;;
  modify_self (set_current_enemy (Some (f e))).

Definition Qltb (x y : Q) : bool := negb (Qle_bool y x).

Definition in_list (s : string) (l : list string) : bool :=
  existsb (String.eqb s) l.

(** The first entry whose name equals [n] without regard to case: the
    loops of [start_combat], [find_item] and [change_location]. *)
Definition find_by_name {A} (name_of : A -> string) (l : list A) (n : string)
  : option A :=
  find (fun x => String.eqb (lower (name_of x)) (lower n)) l.

(** [l.pop(i)] for an index in range, as far as the list goes *)
Fixpoint pop_at {A} (i : nat) (l : list A) : list A :=
  match l, i with
  | [], _ => []
  | _ :: r, O => r
  | x :: r, S k => x :: pop_at k r
  end.

(** [l.remove(x)]: the first element equal to [x] goes. *)
Fixpoint remove_first (x : Item) (l : list Item) : list Item :=
  match l with
  | [] => []
  | y :: r => if item_eq_dec x y then r else y :: remove_first x r
  end.

(** [l[-n:]] for [n > 0] *)
Definition last_n {A} (n : nat) (l : list A) : list A :=
  skipn (List.length l - n) l.

(** A reply of [self.client.generate]: a mapping that may hold the key
    ["response"], an [ollama.ResponseError], or any other exception. *)
Inductive ClientReply :=
| Reply (response : option string)
| ResponseError (error : string) (status_code : Z)
| OtherError (msg : string).

(** The float in [0, 1) a raw random word stands for. *)
Definition unit_float (k : N) : Q :=
  Z.of_N (k mod 9007199254740992) # 9007199254740992.

(** The float the literal [0.6] denotes: 5404319552844595 * 2^-53, the
    binary64 number nearest to 6/10 and a little below it. *)
Definition float_0_6 : Q := 5404319552844595 # 9007199254740992.

(** ** The program *)

Section Program.

(** The random generator: the [i]-th raw word it produces. *)
Variable rand : nat -> N.
(** The model: the outcome of the [i]-th call of [self.client.generate] on
    a prompt. *)
Variable client_generate : nat -> string -> ClientReply.
(** The console: the [i]-th line typed. *)
Variable stdin : nat -> string.
(** The two prompt texts of [process_player_action] (lines 341-385), which
    only the model reads. *)
Variable action_prompt : Game -> string -> string.
Variable action_system_prompt : string.

Definition next_raw : M N :=
  fun m => Val (rand (rand_pos m))
               (mkMachine (self m) (stdout m) (S (rand_pos m)) (llm_pos m)
                          (stdin_pos m)).

(** [random.randint(a, b)]: an empty range raises. *)
Definition randint (a b : Z) : M Z :=
  if a <=? b
  then k <- next_raw;; ret (a + Z.of_N k mod (b - a + 1))
  else raise (ValueError "empty range for randrange()").

(** [random.random()]: a multiple of 2^-53 in [0, 1). *)
Definition random : M Q :=
  k <- next_raw;;
  ret (unit_float k).

(** [random.choice(l)] *)
Definition choice {A} (l : list A) : M A :=
  match l with
  | [] => raise (IndexError "Cannot choose from an empty sequence")
  | x :: _ =>
      k <- next_raw;;
      ret (nth (N.to_nat (k mod N.of_nat (List.length l))) l x)
  end.

(** [input(prompt)] *)
Definition input (prompt : string) : M string :=
  fun m => Val (stdin (stdin_pos m))
               (mkMachine (self m) (stdout m ++ [prompt]) (rand_pos m)
                          (llm_pos m) (S (stdin_pos m))).

Definition client_call (prompt : string) : M ClientReply :=
  fun m => Val (client_generate (llm_pos m) prompt)
               (mkMachine (self m) (stdout m) (rand_pos m) (S (llm_pos m))
                          (stdin_pos m)).

(** [generate_ai_response], lines 57-72 *)
Definition generate_ai_response (prompt system_prompt : string) : M string :=
  reply <- client_call
             ("<s>[INST] " ++ system_prompt
              ++ ". Lastly, please don't use cliches and AI-slop, try to stay original."
              ++ nl ++ nl ++ prompt ++ "[/INST] ");;
  match reply with
  | Reply r =>
      ret (sub_think (match r with Some t => t | None => "" end))
  | ResponseError err status =>
      print ("Error: " ++ err);;
      print ("Status code: " ++ str_of_Z status);;
      ret ("Error communicating with AI model: " ++ err)
  | OtherError msg =>
      print ("Error: " ++ msg);;
      ret "Error communicating with AI model. Please ensure Ollama is running."
  end.

(** The parameters of [generate_ai_response] after [self]. *)
Definition generate_ai_response_params : list string :=
  ["prompt"; "system_prompt"].

(** A call [self.generate_ai_response(prompt, system_prompt, **kwargs)]:
    a keyword that names no parameter raises before the body runs. *)
Definition call_generate_ai_response (prompt system_prompt : string)
    (kwargs : list (string * Z)) : M string :=
  match find (fun kv => negb (in_list (fst kv) generate_ai_response_params))
             kwargs with
  | Some (k, _) =>
      raise (TypeError ("generate_ai_response() got an unexpected keyword argument '"
                        ++ k ++ "'"))
  | None => generate_ai_response prompt system_prompt
  end.

(** [add_to_knowledge_base], lines 773-783 *)
Definition add_to_knowledge_base (event : string) : M unit :=
  g <- get_self;;
  let formatted_event := "Turn " ++ str_of_Z (turn_count g) ++ ": " ++ event in
  modify_self (fun g => set_knowledge_base (knowledge_base g ++ [formatted_event]) g);;
  g <- get_self;;
  if (50 <? List.length (knowledge_base g))%nat
  then modify_self (set_knowledge_base (last_n 50 (knowledge_base g)))
  else ret tt.

(** [start_combat], lines 438-472 *)
Definition start_combat (enemy_name : string) : M unit :=
  g <- get_self;;
  enemy <- match find_by_name e_name (enemies (world_data g)) enemy_name with
           | Some e => ret e
           | None =>
               difficulty <- randint 1 (Z.min 10 (turn_count g / 5 + 1));;
               ret (mkEnemy enemy_name difficulty (20 * difficulty)
                            (5 + difficulty * 2) (2 + difficulty)
                            ("A mysterious " ++ enemy_name ++ "."))
           end;;
  modify_self (set_in_combat true);;
  modify_self (set_current_enemy (Some enemy));;
  print (Colors.RED ++ nl ++ repeat_str "=" 80);;
  print (Colors.RED ++ "COMBAT: " ++ p_name (player g) ++ " vs " ++ e_name enemy);;
  print (Colors.RED ++ repeat_str "=" 80);;
  print (Colors.RED ++ nl ++ e_description enemy);;
  print (Colors.RED ++ nl ++ "The " ++ e_name enemy ++ " looks ready for battle!");;
  print (Colors.RED ++ nl ++ "Enemy stats: Health: " ++ str_of_Z (e_health enemy)
         ++ ", Attack: " ++ str_of_Z (e_attack enemy)
         ++ ", Defense: " ++ str_of_Z (e_defense enemy));;
  add_to_knowledge_base ("Encountered and fought " ++ e_name enemy).

(** [player_attack], lines 513-529 *)
Definition player_attack : M unit :=
  g <- get_self;;
  base_damage <- randint (attack (player g) / 2) (attack (player g));;
  e <- cur_enemy;;
  let damage := Z.max 1 (base_damage - e_defense e / 2) in
  modify_enemy (fun e => set_e_health (e_health e - damage) e);;
  e <- cur_enemy;;
  print (Colors.RED ++ nl ++ "You attack the " ++ e_name e ++ " for "
         ++ str_of_Z damage ++ " damage!");;
  u <- random;;
  if Qltb u (25 # 100)
  then
    let crit_damage := damage / 2 in
    modify_enemy (fun e => set_e_health (e_health e - crit_damage) e);;
    print (Colors.RED ++ Colors.BOLD ++ "Critical hit! +" ++ str_of_Z crit_damage
           ++ " bonus damage!")
  else ret tt.

(** [enemy_attack], lines 531-541 *)
Definition enemy_attack : M unit :=
  e <- cur_enemy;;
  base_damage <- randint (e_attack e / 2) (e_attack e);;
  g <- get_self;;
  let damage := Z.max 1 (base_damage - defense (player g) / 2) in
  modify_player (fun p => set_health (health p - damage) p);;
  e <- cur_enemy;;
  print (Colors.RED ++ nl ++ "The " ++ e_name e ++ " attacks you for "
         ++ str_of_Z damage ++ " damage!").

(** [player_defend], lines 543-565 *)
Definition player_defend : M unit :=
  g <- get_self;;
  let temp_defense := defense (player g) / 2 in
  modify_player (fun p => set_defense (defense p + temp_defense) p);;
  g <- get_self;;
  let heal_amount := max_health (player g) / 20 in
  modify_player (fun p => set_health (Z.min (max_health p) (health p + heal_amount)) p);;
  print (Colors.RED ++ nl ++ "You take a defensive stance, increasing your defense by "
         ++ str_of_Z temp_defense ++ ".");;
  print (Colors.RED ++ "You recover " ++ str_of_Z heal_amount ++ " health.");;
  e <- cur_enemy;;
  base_damage <- randint (e_attack e / 3) (e_attack e / 2);;
  g <- get_self;;
  let damage := Z.max 1 (base_damage - defense (player g) / 2) in
  modify_player (fun p => set_health (health p - damage) p);;
  e <- cur_enemy;;
  print (Colors.RED ++ "The " ++ e_name e
         ++ " attacks, but you block most of it! " ++ str_of_Z damage
         ++ " damage taken.");;
  modify_player (fun p => set_defense (defense p - temp_defense) p).

(** [0.6 + (self.turn_count / 100)], as a rational *)
Definition flee_chance (g : Game) : Q := (6 # 10) + (turn_count g # 100).

(** [attempt_flee], lines 567-585 *)
Definition attempt_flee : M unit :=
  g <- get_self;;
  u <- random;;
  if Qltb u (flee_chance g)
  then
    e <- cur_enemy;;
    print (Colors.RED ++ nl ++ "You successfully escape from the " ++ e_name e ++ "!");;
    modify_self (set_in_combat false);;
    modify_self (set_current_enemy None);;
    e <- cur_enemy;;
    add_to_knowledge_base ("Fled from combat with " ++ e_name e)
  else
    e <- cur_enemy;;
    print (Colors.RED ++ nl ++ "You fail to escape! The " ++ e_name e
           ++ " attacks while you're vulnerable!");;
    e <- cur_enemy;;
    base_damage <- randint (e_attack e / 2) (e_attack e);;
    g <- get_self;;
    let damage := Z.max 2 (base_damage - defense (player g) / 3) in
    modify_player (fun p => set_health (health p - damage) p);;
    print (Colors.RED ++ "You take " ++ str_of_Z damage ++ " damage!").

(** [generate_combat_reward], lines 628-640 *)
Definition generate_combat_reward : M unit :=
  let item := mkItem "Health Potion" "consumable" "Restores 50 health"
                     "A small vial containing a red liquid that heals wounds." in
  modify_player (fun p => set_inventory (inventory p ++ [item]) p);;
  print (Colors.GREEN ++ nl ++ "You found: " ++ i_name item ++ " - "
         ++ i_description item).

(** [resolve_combat], lines 587-626 *)
Definition resolve_combat (player_won : bool) : M unit :=
  (if player_won
   then
     e <- cur_enemy;;
     print (Colors.GREEN ++ nl ++ "You defeated the " ++ e_name e ++ "!");;
     u <- random;;
     (if Qltb u float_0_6 then generate_combat_reward else ret tt);;
     g <- get_self;;
     let heal_amount := max_health (player g) / 10 in
     modify_player (fun p => set_health (Z.min (max_health p) (health p + heal_amount)) p);;
     print (Colors.GREEN ++ "You recover " ++ str_of_Z heal_amount
            ++ " health after the battle.");;
     e <- cur_enemy;;
     add_to_knowledge_base ("Defeated " ++ e_name e ++ " in combat")
   else
     print (Colors.RED ++ nl ++ "You have been defeated...");;
     print (Colors.RED ++ nl ++ "As consciousness fades, a mysterious force intervenes...");;
     modify_player (fun p => set_health (max_health p / 4) p);;
     g <- get_self;;
     (match inventory (player g) with
      | [] => ret tt
      | _ :: _ =>
          u <- random;;
          if Qltb u (5 # 10)
          then
            lost_item <- choice (inventory (player g));;
            modify_player (fun p => set_inventory (remove_first lost_item (inventory p)) p);;
            print (nl ++ "You lost your " ++ i_name lost_item ++ " in the battle!")
          else ret tt
      end);;
     print (Colors.RED ++ nl ++ "You awaken, weakened but alive.");;
     e <- cur_enemy;;
     add_to_knowledge_base ("Was defeated by " ++ e_name e
                            ++ " but mysteriously revived"));;
  modify_self (set_in_combat false);;
  modify_self (set_current_enemy None);;
  _ <- input (Colors.GREY ++ nl ++ "Press Enter to continue...");;
  ret tt.

(** [find_item], lines 642-668 *)
Definition find_item (item_name : string) : M unit :=
  g <- get_self;;
  item <- match find_by_name i_name (items (world_data g)) item_name with
          | Some i => ret i
          | None =>
              let item := mkItem item_name "misc" "Unknown"
                                 ("A mysterious " ++ item_name ++ ".") in
              modify_self (fun g => set_world_data
                             (set_items (items (world_data g) ++ [item]) (world_data g)) g);;
              ret item
          end;;
  modify_player (fun p => set_inventory (inventory p ++ [item]) p);;
  print (Colors.GREEN ++ nl ++ "You found: " ++ i_name item ++ " - "
         ++ i_description item);;
  add_to_knowledge_base ("Found " ++ i_name item).

(** The loop of [use_item]: index and entry of the first inventory item
    whose name matches. *)
Fixpoint find_indexed (l : list Item) (n : string) : option (nat * Item) :=
  match l with
  | [] => None
  | x :: r =>
      if String.eqb (lower (i_name x)) (lower n) then Some (O, x)
      else match find_indexed r n with
           | Some (i, y) => Some (S i, y)
           | None => None
           end
  end.

(** [use_item], lines 670-734 *)
Definition use_item (item_name : string) : M unit :=
  g <- get_self;;
  match find_indexed (inventory (player g)) item_name with
  | None =>
      print (Colors.RED ++ nl ++ "You don't have a " ++ item_name
             ++ " in your inventory.")
  | Some (item_index, item) =>
      if String.eqb (lower (i_type item)) "consumable" then
        modify_player (fun p => set_inventory (pop_at item_index (inventory p)) p);;
        if contains "heal" (lower (i_effect item))
           || contains "health" (lower (i_effect item))
        then
          let heal_amount := match search_digits (i_effect item) with
                             | Some d => int_of_digits d
                             | None => 20
                             end in
          g <- get_self;;
          let old_health := health (player g) in
          modify_player (fun p => set_health (Z.min (max_health p) (health p + heal_amount)) p);;
          g <- get_self;;
          let actual_heal := health (player g) - old_health in
          print (Colors.GREEN ++ nl ++ "You used " ++ i_name item ++ " and recovered "
                 ++ str_of_Z actual_heal ++ " health!")
        else
          print (Colors.GREEN ++ nl ++ "You used " ++ i_name item ++ ". "
                 ++ i_effect item)
      else if String.eqb (lower (i_type item)) "weapon" then
        print (Colors.GREEN ++ nl ++ "You equip the " ++ i_name item ++ ".");;
        let attack_bonus := match search_plus_digits (i_effect item) with
                            | Some d => int_of_digits d
                            | None => 5
                            end in
        g <- get_self;;
        let old_attack := attack (player g) in
        modify_player (fun p => set_attack (attack p + attack_bonus) p);;
        g <- get_self;;
        print (Colors.GREEN ++ "Your attack increases from " ++ str_of_Z old_attack
               ++ " to " ++ str_of_Z (attack (player g)) ++ "!")
      else if String.eqb (lower (i_type item)) "armor" then
        print (nl ++ "You equip the " ++ i_name item ++ ".");;
        let defense_bonus := match search_plus_digits (i_effect item) with
                             | Some d => int_of_digits d
                             | None => 3
                             end in
        g <- get_self;;
        let old_defense := defense (player g) in
        modify_player (fun p => set_defense (defense p + defense_bonus) p);;
        g <- get_self;;
        print (Colors.GREEN ++ "Your defense increases from " ++ str_of_Z old_defense
               ++ " to " ++ str_of_Z (defense (player g)) ++ "!")
      else
        print (Colors.GREEN ++ nl ++ "You use " ++ i_name item
               ++ ". Nothing obvious happens.")
  end.

(** [change_location], lines 736-771 *)
Definition change_location (location_name : string) : M unit :=
  g <- get_self;;
  let old_location := current_location g in
  modify_self (set_current_location location_name);;
  g <- get_self;;
  (match find_by_name l_name (locations (world_data g)) location_name with
   | Some _ => ret tt
   | None =>
       location_type <- choice ["settlement"; "dungeon"; "wilderness"; "landmark"];;
       let system_prompt :=
         "You are an RPG location designer. Create a vivid description for a new location." in
       let prompt :=
         "Create a detailed description for a location called '" ++ location_name
         ++ "' in a " ++ w_theme (world_data g) ++ " world named "
         ++ w_name (world_data g) ++ ". The location is of type "
         ++ location_type ++ "." in
       description <- call_generate_ai_response prompt system_prompt
                        [("max_tokens", 200)];;
       let location_details := mkLocation location_name location_type description in
       modify_self (fun g => set_world_data
                      (set_locations (locations (world_data g) ++ [location_details])
                                     (world_data g)) g)
   end);;
  print (Colors.GREEN ++ nl ++ "You have moved from " ++ old_location ++ " to "
         ++ location_name ++ ".");;
  add_to_knowledge_base ("Traveled from " ++ old_location ++ " to " ++ location_name).

(** [parts[1].strip().split("\n")[0].strip()] *)
Definition payload (parts : list string) : string :=
  strip (hd "" (split nl (strip (nth 1 parts "")))).

(** [process_response_tags], lines 397-425 *)
Definition process_response_tags (response : string) : M unit :=
  (if contains "[COMBAT]" response then
     let parts := split "[COMBAT]" response in
     if (1 <? List.length parts)%nat then start_combat (payload parts) else ret tt
   else ret tt);;
  (if contains "[ITEM]" response then
     let parts := split "[ITEM]" response in
     if (1 <? List.length parts)%nat then find_item (payload parts) else ret tt
   else ret tt);;
  (if contains "[LOCATION]" response then
     let parts := split "[LOCATION]" response in
     if (1 <? List.length parts)%nat then change_location (payload parts) else ret tt
   else ret tt);;
  (if contains "[EVENT]" response then
     let parts := split "[EVENT]" response in
     if (1 <? List.length parts)%nat then add_to_knowledge_base (payload parts)
     else ret tt
   else ret tt).

(** One round of the loop of [remove_tags]. *)
Definition remove_tag (text tag : string) : string :=
  if contains tag text then
    match split tag text with
    | p0 :: p1 :: rest =>
        match split1_char "010" p1 with
        | (_, Some after) => join (p0 :: after :: rest)
        | (_, None) => join (p0 :: p1 :: rest)
        end
    | parts => join parts
    end
  else text.

(** [remove_tags], lines 427-436 *)
Definition remove_tags (text : string) : string :=
  strip (fold_left remove_tag ["[COMBAT]"; "[ITEM]"; "[LOCATION]"; "[EVENT]"] text).

(** [process_player_action], lines 325-395 *)
Definition process_player_action (action : string) : M unit :=
  modify_self (fun g => set_turn_count (turn_count g + 1) g);;
  g <- get_self;;
  response <- generate_ai_response (action_prompt g action) action_system_prompt;;
  process_response_tags response;;
  let response_without_tags := remove_tags response in
  print (Colors.GREEN ++ nl ++ response_without_tags).

(** [combat_turn], lines 474-511 *)
Definition combat_turn : M unit :=
  g <- get_self;;
  print (Colors.RED ++ nl ++ repeat_str "-" 40);;
  print (Colors.RED ++ "YOUR HEALTH: " ++ str_of_Z (health (player g)) ++ "/"
         ++ str_of_Z (max_health (player g)));;
  e <- cur_enemy;;
  print (Colors.RED ++ "ENEMY HEALTH: " ++ str_of_Z (e_health e));;
  print (Colors.RED ++ repeat_str "-" 40);;
  print (Colors.GREY ++ nl ++ "Combat options: attack, use [item], defend, flee");;
  action <- input (Colors.BOLD ++ "What will you do? > ");;
  acted <- (if in_list (lower action) ["attack"; "a"] then
              player_attack;; ret true
            else if startswith (lower action) "use " then
              let item_name := strip (slice_from 4 action) in
              use_item item_name;; ret true
            else if in_list (lower action) ["defend"; "d"] then
              player_defend;; ret true
            else if in_list (lower action) ["flee"; "f"; "run"] then
              attempt_flee;; ret true
            else
              print (Colors.RED ++ "Invalid combat action. Try again.");;
              ret false);;
  if negb acted then ret tt
  else
    e <- cur_enemy;;
    if e_health e <=? 0 then resolve_combat true
    else
      enemy_attack;;
      g <- get_self;;
      if health (player g) <=? 0 then resolve_combat false else ret tt.

(** [show_help], [show_status], [show_inventory], [show_knowledge_base]:
    they render a screen and wait for Enter; what they print is left out. *)
Definition show_screen : M unit :=
  _ <- input (Colors.GREY ++ nl ++ "Press Enter to continue...");;
  ret tt.

(** [quit_game], lines 865-886; the messages of the save are left out. *)
Definition quit_game : M unit :=
  print (Colors.GREY ++ nl ++ "Thank you for playing the AI Text RPG!");;
  print (Colors.GREY ++ "Saving game state...");;
  print "Goodbye!";;
  raise (SystemExit 0).

(** [exploration_turn], lines 293-323 *)
Definition exploration_turn : M unit :=
  action <- input (Colors.CYAN ++ nl ++ "What would you like to do? > ");;
  (if in_list (lower action) ["quit"; "exit"; "q"] then quit_game else ret tt);;
  if in_list (lower action) ["help"; "h"; "?"] then show_screen
  else if in_list (lower action) ["status"; "stats"; "stat"] then show_screen
  else if in_list (lower action) ["inventory"; "inv"; "i"] then show_screen
  else if in_list (lower action) ["history"; "events"; "kb"] then show_screen
  else process_player_action action.

(** One round of [game_loop], lines 285-291. *)
Definition game_loop_step : M unit :=
  g <- get_self;;
  if in_combat g then combat_turn else exploration_turn.

End Program.

(** The object after [__init__] and [setup_game]: the player's start
    values, a name, a world and its first location. *)
Definition new_game (name : string) (w : WorldData) (loc : string) : Game :=
  mkGame w [] (mkPlayer name 100 100 10 5 [] []) loc 0 false None.

Definition boot (g : Game) : Machine := mkMachine g [] O O O.

(** ** Relations every step of a computation respects

    [keeps R c]: from any machine, [c] stops, returned or raised, in a
    machine whose object is [R]-related to the one it started from. *)

Class Preorder (R : Game -> Game -> Prop) : Prop := {
  pre_refl : forall g, R g g;
  pre_trans : forall a b c, R a b -> R b c -> R a c
}.

Definition keeps (R : Game -> Game -> Prop) {A} (c : M A) : Prop :=
  forall m, R (self m) (self (final (c m))).

(** [same f]: the projection [f] of the object is left as it was. *)
Definition same {X} (f : Game -> X) : Game -> Game -> Prop :=
  fun g g' => f g' = f g.

(** The log only grows by entries stamped with the unchanged turn counter,
    oldest entries falling off the front. *)
Definition log_grows (g g' : Game) : Prop :=
  turn_count g' = turn_count g /\
  exists dropped added,
    (knowledge_base g ++ added = dropped ++ knowledge_base g')%list /\
    Forall (fun s => startswith s ("Turn " ++ str_of_Z (turn_count g) ++ ": ") = true)
           added.

(** The entry [add_to_knowledge_base] writes for [event]. *)
Definition stamped (g : Game) (event : string) : string :=
  "Turn " ++ str_of_Z (turn_count g) ++ ": " ++ event.

(** *** Reachable states *)

Section Run.

Variable rand : nat -> N.
Variable client_generate : nat -> string -> ClientReply.
Variable stdin : nat -> string.
Variable action_prompt : Game -> string -> string.
Variable action_system_prompt : string.

(** The machines [game_loop] passes through between two actions, from the
    machine [m0] it starts in: each round that returns gives the next one. *)
Inductive reachable (m0 : Machine) : Machine -> Prop :=
| reach_start : reachable m0 m0
| reach_step m m' :
    reachable m0 m ->
    game_loop_step rand client_generate stdin action_prompt action_system_prompt m
      = Val tt m' ->
    reachable m0 m'.

End Run.

Definition health_in_range (g : Game) : Prop :=
  0 <= health (player g) <= max_health (player g).

(** Every enemy of the registry has some health left. *)
Definition enemies_alive (w : WorldData) : Prop :=
  Forall (fun e => 0 < e_health e) (enemies w).

(** While an encounter is open its enemy is there and alive. *)
Definition encounter_ok (g : Game) : Prop :=
  in_combat g = true ->
  exists e, current_enemy g = Some e /\ 0 < e_health e.

(** The rest of [combat_turn] after a valid action, lines 500-511. *)
Definition after_action (rand : nat -> N) (stdin : nat -> string) : M unit :=
  e <- cur_enemy;;
  if e_health e <=? 0 then resolve_combat rand stdin true
  else
    enemy_attack rand;;
    g <- get_self;;
    if health (player g) <=? 0 then resolve_combat rand stdin false else ret tt.

(** [max_health] stays and health does not rise above it. *)
Definition capped (g g' : Game) : Prop :=
  max_health (player g') = max_health (player g) /\
  (0 <= max_health (player g) ->
   health (player g) <= max_health (player g) ->
   health (player g') <= max_health (player g')).

(** [max_health] stays and health stays in range. *)
Definition range_kept (g g' : Game) : Prop :=
  max_health (player g') = max_health (player g) /\
  (health_in_range g -> health_in_range g').

(** The registry of enemies stays and an open encounter stays sound. *)
Definition encounter_kept (g g' : Game) : Prop :=
  enemies (world_data g') = enemies (world_data g) /\
  (enemies_alive (world_data g) -> encounter_ok g -> encounter_ok g').

(** What the loop holds between two actions. *)
Definition loop_invariant (g : Game) : Prop :=
  health_in_range g /\ encounter_ok g /\ enemies_alive (world_data g) /\
  max_health (player g) = 100.

(** The machines an encounter passes through from [m0]: rounds of
    [combat_turn] that return, each begun in combat. *)
Inductive encounter (rand : nat -> N) (stdin : nat -> string) (m0 : Machine)
  : Machine -> Prop :=
| encounter_start : encounter rand stdin m0 m0
| encounter_round m m' :
    encounter rand stdin m0 m ->
    in_combat (self m) = true ->
    combat_turn rand stdin m = Val tt m' ->
    encounter rand stdin m0 m'.

(** The value [randint rand a b] makes of the raw word [k], for [a <= b]. *)
Definition roll (k : N) (a b : Z) : Z := a + Z.of_N k mod (b - a + 1).

(** The four tags of [process_response_tags] and [remove_tags]. *)
Definition tags : list string := ["[COMBAT]"; "[ITEM]"; "[LOCATION]"; "[EVENT]"].

(** The names of a registry of items with case folded. *)
Definition item_keys (l : list Item) : list string :=
  map (fun i => lower (i_name i)) l.

(** The registries only grow, and only that of the items: enemies and
    locations stay, items are added at the end, and names that were unique
    without regard to case stay so. *)
Definition registry_grows (g g' : Game) : Prop :=
  enemies (world_data g') = enemies (world_data g) /\
  locations (world_data g') = locations (world_data g) /\
  (exists added, items (world_data g') = items (world_data g) ++ added)%list /\
  (NoDup (item_keys (items (world_data g))) ->
   NoDup (item_keys (items (world_data g')))).

(** The log stays within its bound. *)
Definition log_bounded (g g' : Game) : Prop :=
  (List.length (knowledge_base g) <= 50)%nat ->
  (List.length (knowledge_base g') <= 50)%nat.

(** The combat flag and the enemy agree. *)
Definition in_step (g : Game) : Prop :=
  (in_combat g = true -> exists e, current_enemy g = Some e) /\
  (in_combat g = false -> current_enemy g = None).

Definition in_step_kept (g g' : Game) : Prop := in_step g -> in_step g'.

(** None of the four tags occurs in the response. *)
Definition tag_free (response : string) : bool :=
  forallb (fun tag => negb (contains tag response)) tags.

(** *** Setup: the text handed to the JSON parser *)

(** [s[s.find(c):]], or [None] when [s.find(c)] is -1 *)
Fixpoint from_first_char (c : ascii) (s : string) : option string :=
  match s with
  | EmptyString => None
  | String d r => if Ascii.eqb d c then Some s else from_first_char c r
  end.

(** The loop of lines 163-171 of [create_world], entered with [depth]: the
    text up to the closing brace that brings the depth to 0, or [None] when
    the loop runs to the end of [s]. *)
Fixpoint up_to_closing_brace (depth : Z) (s : string) : option string :=
  match s with
  | EmptyString => None
  | String c r =>
      if Ascii.eqb c "{" then
        option_map (String c) (up_to_closing_brace (depth + 1) r)
      else if Ascii.eqb c "}" then
        if depth - 1 =? 0 then Some (String c EmptyString)
        else option_map (String c) (up_to_closing_brace (depth - 1) r)
      else option_map (String c) (up_to_closing_brace depth r)
  end.

(** Lines 156-173 of [create_world]: the text that goes to [json.loads],
    or [None] for [ValueError("No JSON found in response")]. *)
Definition create_world_json_str (response : string) : option string :=
  let json_str := strip response in
  if startswith json_str "{" then Some json_str
  else
    match from_first_char "{" json_str with
    | Some tail =>
        match up_to_closing_brace 0 tail with
        | Some object => Some object
        | None => Some tail
        end
    | None => None
    end.





(** Lines 253-264 of [generate_game_elements]: the first location of the
    registry, or a default one that is registered, becomes the current
    location. *)
Definition set_initial_location : M unit :=
  g <- get_self;;
  match locations (world_data g) with
  | first :: _ => modify_self (set_current_location (l_name first))
  | [] =>
      let default_location :=
        mkLocation "Starting Village" "settlement"
                   "A small village on the edge of the wilderness." in
      modify_self (fun g => set_world_data
                     (set_locations (locations (world_data g) ++ [default_location])
                                    (world_data g)) g);;
      modify_self (set_current_location (l_name default_location))
  end.

(** Opening braces less closing braces. *)
Fixpoint brace_depth (s : string) : Z :=
  match s with
  | EmptyString => 0
  | String c r =>
      (if Ascii.eqb c "{" then 1 else if Ascii.eqb c "}" then -1 else 0)
      + brace_depth r
  end.

(** The last character of [s] is [c]. *)
Fixpoint ends_with_char (c : ascii) (s : string) : bool :=
  match s with
  | EmptyString => false
  | String d EmptyString => Ascii.eqb d c
  | String _ r => ends_with_char c r
  end.

(** [s] neither begins nor ends with white space. *)
Definition trimmed (s : string) : Prop :=
  match s with
  | EmptyString => True
  | String c _ => is_space c = false
  end /\
  forall c, ends_with_char c s = true -> is_space c = false.

(** The turn counter does not go back. *)
Definition turn_grows (g g' : Game) : Prop := turn_count g <= turn_count g'.

(** *** What the two patterns of [use_item] match

    The number a string of decimal digits denotes, read by the Standard
    Library; [None] when a character is not a digit. *)
Definition decimal_value (d : string) : option Z :=
  option_map Z.of_uint (NilEmpty.uint_of_string d).

(** Somewhere in [s] a "+" is immediately followed by a digit. *)
Fixpoint has_plus_digit (s : string) : bool :=
  match s with
  | EmptyString => false
  | String c r =>
      (Ascii.eqb c "+" && negb (no_digit_ahead r)) || has_plus_digit r
  end.

(** [n] is the first integer literal of [s], or [default] when [s] has
    none: however [s] is cut into a text without a digit, a run of digits
    that is not empty and a rest that does not go on with a digit, [n] is
    the number that run denotes.  One of the two cases always applies
    (lemma [first_integer_total]). *)
Definition first_integer (s : string) (default n : Z) : Prop :=
  (all_chars (fun c => negb (is_digit c)) s = true -> n = default) /\
  (forall before d after,
     s = (before ++ d ++ after)%string ->
     all_chars (fun c => negb (is_digit c)) before = true ->
     d <> EmptyString ->
     all_chars is_digit d = true ->
     no_digit_ahead after = true ->
     decimal_value d = Some n).

(** [n] is the number after the leftmost "+" of [s] that a digit follows,
    or [default] when [s] has no such "+": however [s] is cut into a text
    in which no "+" is followed by a digit, a "+", a run of digits that is
    not empty and a rest that does not go on with a digit, [n] is the
    number that run denotes.  One of the two cases always applies (lemma
    [plus_integer_total]). *)
Definition plus_integer (s : string) (default n : Z) : Prop :=
  (has_plus_digit s = false -> n = default) /\
  (forall before d after,
     s = (before ++ "+" ++ d ++ after)%string ->
     has_plus_digit before = false ->
     d <> EmptyString ->
     all_chars is_digit d = true ->
     no_digit_ahead after = true ->
     decimal_value d = Some n).

(** *** Concrete oracles and objects for the examples *)

Definition draws (l : list N) : nat -> N := fun i => nth i l 0%N.
Definition typed (l : list string) : nat -> string := fun i => nth i l "".
Definition model_says (s : string) : nat -> string -> ClientReply :=
  fun _ _ => Reply (Some s).
Definition plain_prompt : Game -> string -> string := fun _ action => action.

Definition village : Location :=
  mkLocation "Starting Village" "settlement"
             "A small village on the edge of the wilderness.".
Definition demo_world : WorldData :=
  mkWorld "Mystical Realm" "A world of magic and mystery awaits you." "Fantasy"
          [] [] [village] [] [].
Definition demo_game : Game := new_game "Adventurer" demo_world "Starting Village".

Definition wolf : Enemy := mkEnemy "Wolf" 2 50 12 2 "A grey wolf.".
Definition wolf_fight : Game :=
  set_current_enemy (Some wolf) (set_in_combat true demo_game).

Definition shade_game : Game := set_turn_count 12 demo_game.

Definition cave_text : string :=
  "You see a cave. [LOCATION] Dark Cave" ++ nl ++ "It is cold.".

Definition potion : Item :=
  mkItem "Elixir" "consumable" "Heal 50 health" "A warm vial.".
Definition sabre : Item := mkItem "Sabre" "weapon" "+7 damage" "A curved blade.".
Definition club : Item := mkItem "Club" "weapon" "Boost 3" "A heavy branch.".
Definition buckler : Item := mkItem "Buckler" "Armor" "Boost 3" "A small shield.".

(** The demo player, hurt, with the four items. *)
Definition packed_game : Game :=
  set_player (set_inventory [potion; sabre; club; buckler]
                (set_health 30 (player demo_game))) demo_game.

(** A registry whose only enemy has no health left and hits hard. *)
Definition ghost : Enemy := mkEnemy "Ghost" 10 0 1000 0 "A pale shape.".
Definition ghost_world : WorldData :=
  mkWorld "Mystical Realm" "A world of magic and mystery awaits you." "Fantasy"
          [] [] [village] [ghost] [].

(** * Properties *)

#[export] Instance same_preorder {X} (f : Game -> X) : Preorder (same f).
Proof.
  split; unfold same.
  - reflexivity.
  - intros a b c Hab Hbc. now rewrite Hbc.
Qed.

Section KeepsLemmas.

Context (R : Game -> Game -> Prop) `{HR : Preorder R}.

Lemma keeps_ret {A} (a : A) : keeps R (ret a).
Proof. intros m. apply pre_refl. Qed.

Lemma keeps_raise {A} (e : exn) : keeps R (@raise A e).
Proof. intros m. apply pre_refl. Qed.

Lemma keeps_bind {A B} (c : M A) (k : A -> M B) :
  keeps R c -> (forall a, keeps R (k a)) -> keeps R (bind c k).
Proof.
  intros Hc Hk m. unfold bind. specialize (Hc m).
  destruct (c m) as [a m' | e m']; cbn in *.
  - eapply pre_trans; [exact Hc | apply Hk].
  - exact Hc.
Qed.

Lemma keeps_print s : keeps R (print s).
Proof. intros m. apply pre_refl. Qed.

Lemma keeps_get_self : keeps R get_self.
Proof. intros m. apply pre_refl. Qed.

Lemma keeps_modify_self f : (forall g, R g (f g)) -> keeps R (modify_self f).
Proof. intros H m. apply H. Qed.

Lemma keeps_modify_player f :
  (forall g, R g (set_player (f (player g)) g)) -> keeps R (modify_player f).
Proof. intros H m. apply H. Qed.

Lemma keeps_cur_enemy : keeps R cur_enemy.
Proof.
  intros m. unfold cur_enemy, bind, get_self.
  destruct (current_enemy (self m)); apply pre_refl.
Qed.

Lemma keeps_modify_enemy f :
  (forall g e, R g (set_current_enemy (Some e) g)) -> keeps R (modify_enemy f).
Proof.
  intros H m. unfold modify_enemy, cur_enemy, bind, get_self.
  destruct (current_enemy (self m)); cbn; [apply H | apply pre_refl].
Qed.

Lemma keeps_next_raw rand : keeps R (next_raw rand).
Proof. intros m. apply pre_refl. Qed.

Lemma keeps_randint rand a b : keeps R (randint rand a b).
Proof.
  unfold randint. destruct (a <=? b).
  - apply keeps_bind; [apply keeps_next_raw | intros; apply keeps_ret].
  - apply keeps_raise.
Qed.

Lemma keeps_random rand : keeps R (random rand).
Proof.
  unfold random. apply keeps_bind; [apply keeps_next_raw | intros; apply keeps_ret].
Qed.

Lemma keeps_choice rand {A} (l : list A) : keeps R (choice rand l).
Proof.
  unfold choice. destruct l.
  - apply keeps_raise.
  - apply keeps_bind; [apply keeps_next_raw | intros; apply keeps_ret].
Qed.

Lemma keeps_input stdin p : keeps R (input stdin p).
Proof. intros m. apply pre_refl. Qed.

Lemma keeps_client_call llm p : keeps R (client_call llm p).
Proof. intros m. apply pre_refl. Qed.

Lemma keeps_generate_ai_response llm p s : keeps R (generate_ai_response llm p s).
Proof.
  unfold generate_ai_response.
  apply keeps_bind; [apply keeps_client_call | intros [r | e c | msg]].
  - apply keeps_ret.
  - repeat (apply keeps_bind; [apply keeps_print | intros]). apply keeps_ret.
  - repeat (apply keeps_bind; [apply keeps_print | intros]). apply keeps_ret.
Qed.

Lemma keeps_call_generate_ai_response llm p s kw :
  keeps R (call_generate_ai_response llm p s kw).
Proof.
  unfold call_generate_ai_response.
  destruct (find _ kw) as [[k v] | ].
  - apply keeps_raise.
  - apply keeps_generate_ai_response.
Qed.

End KeepsLemmas.

(** Walks through a computation built from the operations above.  [leaf]
    closes the goals the walk cannot: updates of the object and calls the
    caller has a lemma for. *)
Ltac keeps_step leaf :=
  lazymatch goal with
  | |- Preorder _ => typeclasses eauto
  | |- keeps _ (bind _ _) => apply keeps_bind; [ typeclasses eauto | | intros ]
  | |- keeps _ (ret _) => apply keeps_ret
  | |- keeps _ (raise _) => apply keeps_raise
  | |- keeps _ (print _) => apply keeps_print
  | |- keeps _ get_self => apply keeps_get_self
  | |- keeps _ cur_enemy => apply keeps_cur_enemy
  | |- keeps _ (randint _ _ _) => apply keeps_randint
  | |- keeps _ (random _) => apply keeps_random
  | |- keeps _ (choice _ _) => apply keeps_choice
  | |- keeps _ (input _ _) => apply keeps_input
  | |- keeps _ (generate_ai_response _ _ _) => apply keeps_generate_ai_response
  | |- keeps _ (call_generate_ai_response _ _ _ _) =>
      apply keeps_call_generate_ai_response
  | |- keeps _ (modify_self _) => apply keeps_modify_self; intros; leaf
  | |- keeps _ (modify_player _) => apply keeps_modify_player; intros; leaf
  | |- keeps _ (modify_enemy _) =>
      apply keeps_modify_enemy; [ typeclasses eauto | intros; leaf ]
  | |- keeps _ (if ?b then _ else _) => destruct b
  | |- keeps _ (match ?x with _ => _ end) => destruct x
  | |- keeps _ (let _ := _ in _) => cbv zeta
  | |- keeps _ _ => leaf
  end.

Ltac keeps_walk leaf := repeat (keeps_step leaf).

Ltac unfold_ops :=
  unfold game_loop_step, exploration_turn, quit_game, show_screen, combat_turn,
    process_player_action, process_response_tags, change_location, use_item,
    find_item, resolve_combat, generate_combat_reward, attempt_flee,
    player_defend, enemy_attack, player_attack, start_combat.

(** An update that touches neither the log nor the counter. *)
Lemma log_grows_same g g' :
  turn_count g' = turn_count g -> knowledge_base g' = knowledge_base g ->
  log_grows g g'.
Proof.
  intros Ht Hk. split; [exact Ht |].
  exists [], []. rewrite Hk, app_nil_r. split; [reflexivity | constructor].
Qed.

#[export] Instance log_grows_preorder : Preorder log_grows.
Proof.
  split.
  - intros g. now apply log_grows_same.
  - intros a b c [Ht1 (d1 & a1 & E1 & F1)] [Ht2 (d2 & a2 & E2 & F2)].
    split; [congruence |].
    exists (d1 ++ d2)%list, (a1 ++ a2)%list. split.
    + rewrite app_assoc, E1, <- !app_assoc, E2. reflexivity.
    + apply Forall_app. split; [exact F1 |]. now rewrite <- Ht1.
Qed.

(** ** The knowledge log *)

Lemma append_assoc (a b c : string) : ((a ++ b) ++ c = a ++ (b ++ c))%string.
Proof. induction a as [| x a IH]; cbn; [reflexivity | now rewrite IH]. Qed.

Lemma prefix_append (p s : string) : String.prefix p (p ++ s) = true.
Proof.
  induction p as [| x p IH]; cbn.
  - now destruct s.
  - destruct (ascii_dec x x); [exact IH | congruence].
Qed.

Lemma stamped_prefix g event :
  startswith (stamped g event) ("Turn " ++ str_of_Z (turn_count g) ++ ": ") = true.
Proof.
  unfold startswith, stamped.
  change ("Turn " ++ str_of_Z (turn_count g) ++ ": " ++ event)
    with ("Turn " ++ (str_of_Z (turn_count g) ++ (": " ++ event))).
  rewrite <- (append_assoc (str_of_Z (turn_count g)) ": " event).
  rewrite <- (append_assoc "Turn " _ event).
  apply prefix_append.
Qed.

(** What one insertion does: it returns, touches the log only, and the new
    log is the old one with the entry at the end and the oldest entries
    beyond fifty gone. *)
Lemma add_to_knowledge_base_spec event m :
  exists m' dropped older,
    add_to_knowledge_base event m = Val tt m' /\
    self m' = set_knowledge_base (knowledge_base (self m')) (self m) /\
    (knowledge_base (self m) ++ [stamped (self m) event]
     = dropped ++ knowledge_base (self m'))%list /\
    List.length dropped = (List.length (knowledge_base (self m)) + 1 - 50)%nat /\
    knowledge_base (self m') = (older ++ [stamped (self m) event])%list /\
    (List.length (knowledge_base (self m')) <= 50)%nat.
Proof.
  unfold add_to_knowledge_base, bind, get_self, modify_self.
  fold (stamped (self m) event).
  cbn [self set_self knowledge_base set_knowledge_base].
  set (kb := knowledge_base (self m)). set (e := stamped (self m) event).
  assert (Hlen : List.length (kb ++ [e])%list = (List.length kb + 1)%nat)
    by (rewrite length_app; reflexivity).
  destruct (Nat.ltb_spec 50 (List.length (kb ++ [e])%list)) as [Hgt | Hle].
  - cbn [self set_self knowledge_base set_knowledge_base]. unfold last_n. rewrite Hlen.
    set (n := (List.length kb + 1 - 50)%nat).
    assert (Hn : (n <= List.length kb)%nat) by (unfold n; lia).
    eexists _, (firstn n (kb ++ [e])%list), (skipn n kb).
    split; [reflexivity |]. cbn [self set_self knowledge_base set_knowledge_base].
    split; [reflexivity |].
    split; [now rewrite firstn_skipn |].
    split; [rewrite length_firstn; lia |].
    split.
    + rewrite skipn_app. replace (n - List.length kb)%nat with O by lia. reflexivity.
    + rewrite length_skipn, Hlen. unfold n. lia.
  - unfold ret. eexists _, [], kb.
    split; [reflexivity |]. cbn [self set_self knowledge_base set_knowledge_base].
    split; [reflexivity |].
    split; [reflexivity |].
    split; [cbn [List.length]; lia |].
    split; [reflexivity | lia].
Qed.

Lemma keeps_log_add event : keeps log_grows (add_to_knowledge_base event).
Proof.
  intros m.
  destruct (add_to_knowledge_base_spec event m)
    as (m' & dropped & older & Hrun & Hself & Happ & _ & _ & _).
  rewrite Hrun. cbn. split.
  - rewrite Hself. reflexivity.
  - exists dropped, [stamped (self m) event]. split; [exact Happ |].
    constructor; [apply stamped_prefix | constructor].
Qed.

Lemma keeps_same_add {X} (f : Game -> X) event :
  (forall v g, f (set_knowledge_base v g) = f g) ->
  keeps (same f) (add_to_knowledge_base event).
Proof.
  intros Hf m.
  destruct (add_to_knowledge_base_spec event m)
    as (m' & dropped & older & Hrun & Hself & _).
  rewrite Hrun. cbn. unfold same. rewrite Hself. apply Hf.
Qed.

(** *** Frames of the two turn handlers *)

Ltac same_leaf :=
  idtac;
  lazymatch goal with
  | |- keeps _ (add_to_knowledge_base _) => apply keeps_same_add; intros; reflexivity
  | |- same _ _ _ => unfold same; reflexivity
  end.

Ltac log_leaf :=
  idtac;
  lazymatch goal with
  | |- keeps _ (add_to_knowledge_base _) => apply keeps_log_add
  | |- log_grows _ _ => apply log_grows_same; reflexivity
  end.

Lemma combat_turn_same_turn_count rand stdin :
  keeps (same turn_count) (combat_turn rand stdin).
Proof. unfold_ops. keeps_walk same_leaf. Qed.

Lemma combat_turn_log_grows rand stdin :
  keeps log_grows (combat_turn rand stdin).
Proof. unfold_ops. keeps_walk log_leaf. Qed.

Lemma final_bind_val {A B} (c : M A) (k : A -> M B) m a m1 :
  c m = Val a m1 -> final (bind c k m) = final (k a m1).
Proof. intros H. unfold bind. now rewrite H. Qed.

Lemma process_player_action_turn_count rand llm ap sp action m :
  turn_count (self (final (process_player_action rand llm ap sp action m)))
  = turn_count (self m) + 1.
Proof.
  unfold process_player_action.
  erewrite final_bind_val by reflexivity.
  match goal with
  | |- turn_count (self (final (?rest ?m1))) = _ =>
      assert (H : keeps (same turn_count) rest)
        by (unfold_ops; keeps_walk same_leaf);
      transitivity (turn_count (self m1)); [exact (H m1) | reflexivity]
  end.
Qed.

(** ** C10: the turn counter *)

Lemma val_of_returned (c : M unit) m :
  returned (c m) = true -> c m = Val tt (final (c m)).
Proof. destruct (c m) as [[] m' | ]; [reflexivity | discriminate]. Qed.

(** C10. No combat action changes the turn counter: whatever is typed and
    however the round ends, [combat_turn] stops with [turn_count] as it was,
    so the chance to flee is the same and every entry the round adds to the
    log carries that same turn number; the same holds from the first to
    the last round of an encounter; and [process_player_action] raises the
    counter by exactly one. *)
Theorem turn_counter_frozen_in_combat
    rand llm stdin action_prompt action_system_prompt m :
  (let m' := final (combat_turn rand stdin m) in
   turn_count (self m') = turn_count (self m) /\
   flee_chance (self m') = flee_chance (self m) /\
   log_grows (self m) (self m')) /\
  (forall m',
      encounter rand stdin m m' ->
      turn_count (self m') = turn_count (self m) /\
      flee_chance (self m') = flee_chance (self m) /\
      log_grows (self m) (self m')) /\
  (forall action,
      turn_count (self (final (process_player_action rand llm action_prompt
                                 action_system_prompt action m)))
      = turn_count (self m) + 1).
Proof.
  assert (Hone : forall m0,
             turn_count (self (final (combat_turn rand stdin m0)))
             = turn_count (self m0) /\
             flee_chance (self (final (combat_turn rand stdin m0)))
             = flee_chance (self m0) /\
             log_grows (self m0) (self (final (combat_turn rand stdin m0)))).
  { intros m0.
    pose proof (combat_turn_same_turn_count rand stdin m0) as Ht.
    unfold same in Ht.
    split; [exact Ht |].
    split; [unfold flee_chance; now rewrite Ht |].
    apply combat_turn_log_grows. }
  split; [apply Hone |]. split.
  - intros m' Henc. induction Henc as [| m1 m2 _ IH _ Hrun].
    + split; [reflexivity |]. split; [reflexivity | apply pre_refl].
    + destruct IH as (It & If & Il).
      destruct (Hone m1) as (Ht & Hf & Hl). rewrite Hrun in Ht, Hf, Hl.
      cbn [final] in Ht, Hf, Hl.
      split; [congruence |]. split; [congruence |].
      eapply pre_trans; eassumption.
  - intros action. apply process_player_action_turn_count.
Qed.

Lemma turn_counter_frozen_in_combat_witness :
  let m0 := boot (set_turn_count 7 wolf_fight) in
  let m1 := final (combat_turn (draws []) (typed ["defend"]) m0) in
  turn_count (self m1) = 7 /\ health (player (self m1)) = 95.
Proof.
  cbv zeta. split; [| vm_compute; reflexivity].
  destruct (turn_counter_frozen_in_combat (draws []) (model_says "")
              (typed ["defend"]) plain_prompt ""
              (boot (set_turn_count 7 wolf_fight)))
    as (_ & Henc & _).
  destruct (Henc (final (combat_turn (draws []) (typed ["defend"])
                           (boot (set_turn_count 7 wolf_fight)))))
    as (Ht & _).
  - eapply encounter_round; [apply encounter_start | reflexivity |].
    apply val_of_returned. vm_compute. reflexivity.
  - exact Ht.
Defined.

(** ** C8: the knowledge log is bounded *)

(** C8. Every insertion returns and leaves a log of at most fifty entries;
    the new log is the old one followed by the new entry, with only a
    front segment (the oldest entries, as many as exceed fifty) removed, so
    the new entry is last and the order of the others is unchanged. *)
Theorem knowledge_log_bounded event m :
  exists m' evicted older,
    add_to_knowledge_base event m = Val tt m' /\
    (List.length (knowledge_base (self m')) <= 50)%nat /\
    (knowledge_base (self m) ++ [stamped (self m) event]
     = evicted ++ knowledge_base (self m'))%list /\
    List.length evicted = (List.length (knowledge_base (self m)) + 1 - 50)%nat /\
    knowledge_base (self m') = (older ++ [stamped (self m) event])%list.
Proof.
  destruct (add_to_knowledge_base_spec event m)
    as (m' & dropped & older & Hrun & _ & Happ & Hlen & Hlast & Hcap).
  exists m', dropped, older. repeat split; assumption.
Qed.

(** ** Symbolic execution of the primitive steps *)

Ltac exec :=
  cbv beta iota zeta delta
    [bind ret raise get_self modify_self modify_player modify_enemy cur_enemy
     print next_raw random input client_call set_self];
  cbn [self stdout rand_pos llm_pos stdin_pos
       world_data knowledge_base player current_location turn_count in_combat
       current_enemy set_world_data set_knowledge_base set_player
       set_current_location set_turn_count set_in_combat set_current_enemy
       p_name health max_health attack defense inventory skills
       set_health set_attack set_defense set_inventory
       w_name w_description w_theme plots characters locations enemies items
       set_locations set_items
       e_name e_difficulty e_health e_attack e_defense e_description
       set_e_health].

(** ** C4: resolving an enemy name *)

Lemma start_combat_same_enemies rand name :
  keeps (same (fun g => enemies (world_data g))) (start_combat rand name).
Proof. unfold_ops. keeps_walk same_leaf. Qed.

Lemma find_append {A} (f : A -> bool) (l1 l2 : list A) :
  find f (l1 ++ l2)%list
  = match find f l1 with Some x => Some x | None => find f l2 end.
Proof.
  induction l1 as [| x l1 IH]; cbn; [reflexivity |].
  destruct (f x); [reflexivity | exact IH].
Qed.

(** The sibling path: a miss in [find_item] registers the new item, and a
    second lookup of the name, in any case, finds it. *)
Lemma find_item_registers name m :
  find_by_name i_name (items (world_data (self m))) name = None ->
  exists m',
    find_item name m = Val tt m' /\
    forall name', lower name' = lower name ->
      find_by_name i_name (items (world_data (self m'))) name'
      = Some (mkItem name "misc" "Unknown" ("A mysterious " ++ name ++ ".")).
Proof.
  intros Hmiss. unfold find_item. exec. rewrite Hmiss. exec.
  match goal with
  | |- context [add_to_knowledge_base ?ev ?m1] =>
      destruct (add_to_knowledge_base_spec ev m1)
        as (m' & dropped & older & Hrun & Hself & _)
  end.
  exists m'. split.
  - rewrite Hrun. reflexivity.
  - intros name' Hlow. rewrite Hself. exec.
    unfold find_by_name in *. rewrite find_append, Hlow, Hmiss. cbn [find i_name].
    now rewrite String.eqb_refl.
Qed.

(** C4, as the code has it for enemies.  [start_combat] never touches the
    registry of enemies, so an enemy synthesized on a miss is not there on
    the next resolution of its name: at turn 12, with the draws 0 and 2, a
    first "Shade" gets difficulty 1 and a second one difficulty 3, the
    registry staying empty. *)
Theorem synthesized_enemy_not_registered :
  (forall rand name m,
      enemies (world_data (self (final (start_combat rand name m))))
      = enemies (world_data (self m))) /\
  let m1 := final (start_combat (draws [0; 2]%N) "Shade" (boot shade_game)) in
  let m2 := final (start_combat (draws [0; 2]%N) "Shade" m1) in
  enemies (world_data (self m1)) = [] /\
  current_enemy (self m1)
  = Some (mkEnemy "Shade" 1 20 7 3 "A mysterious Shade.") /\
  enemies (world_data (self m2)) = [] /\
  current_enemy (self m2)
  = Some (mkEnemy "Shade" 3 60 11 5 "A mysterious Shade.").
Proof.
  split.
  - intros rand name m. apply (start_combat_same_enemies rand name m).
  - vm_compute. repeat split; reflexivity.
Qed.

(** ** C2: fleeing *)

(** C2, as the code has it.  A flee attempt whose draw succeeds leaves
    combat and then raises: the enemy is cleared before its name is read
    for the log entry, so nothing is logged and the round does not return. *)
Theorem flee_success_raises rand m e :
  current_enemy (self m) = Some e ->
  Qltb (unit_float (rand (rand_pos m))) (flee_chance (self m)) = true ->
  exists m',
    attempt_flee rand m
    = Exn (TypeError "'NoneType' object is not subscriptable") m' /\
    in_combat (self m') = false /\
    current_enemy (self m') = None /\
    knowledge_base (self m') = knowledge_base (self m).
Proof.
  intros He Hu. unfold attempt_flee. exec. rewrite Hu. exec. rewrite He. exec.
  eexists. split; [reflexivity |]. exec. repeat split; reflexivity.
Qed.

Lemma flee_success_raises_witness :
  exists m',
    attempt_flee (draws []) (boot wolf_fight)
    = Exn (TypeError "'NoneType' object is not subscriptable") m' /\
    in_combat (self m') = false /\
    current_enemy (self m') = None /\
    knowledge_base (self m') = knowledge_base (self (boot wolf_fight)).
Proof.
  apply (flee_success_raises (draws []) (boot wolf_fight) wolf); reflexivity.
Defined.

(** ** C3: a location that is not in the registry *)

Lemma call_with_max_tokens llm prompt system_prompt :
  call_generate_ai_response llm prompt system_prompt [("max_tokens", 200)]
  = raise (TypeError
      "generate_ai_response() got an unexpected keyword argument 'max_tokens'").
Proof. reflexivity. Qed.

(** C3, as the code has it.  On a miss [change_location] calls
    [generate_ai_response] with a keyword the function does not have: the
    call raises before the model is asked, no record is added, and only
    the name of the current location has changed. *)
Theorem unknown_location_raises rand llm name m :
  find_by_name l_name (locations (world_data (self m))) name = None ->
  exists m',
    change_location rand llm name m
    = Exn (TypeError
        "generate_ai_response() got an unexpected keyword argument 'max_tokens'")
        m' /\
    locations (world_data (self m')) = locations (world_data (self m)) /\
    current_location (self m') = name /\
    llm_pos m' = llm_pos m /\
    knowledge_base (self m') = knowledge_base (self m).
Proof.
  intros Hmiss. unfold change_location. exec. rewrite Hmiss.
  unfold choice. exec. rewrite call_with_max_tokens. exec.
  eexists. split; [reflexivity |]. exec. repeat split; reflexivity.
Qed.

Lemma unknown_location_raises_witness :
  exists m',
    change_location (draws []) (model_says "A cave.") "Dark Cave" (boot demo_game)
    = Exn (TypeError
        "generate_ai_response() got an unexpected keyword argument 'max_tokens'")
        m' /\
    locations (world_data (self m')) = locations (world_data (self (boot demo_game))) /\
    current_location (self m') = "Dark Cave" /\
    llm_pos m' = llm_pos (boot demo_game) /\
    knowledge_base (self m') = knowledge_base (self (boot demo_game)).
Proof.
  apply (unknown_location_raises (draws []) (model_says "A cave.") "Dark Cave"
           (boot demo_game)).
  reflexivity.
Defined.

(** ** C5: the example of tag stripping *)

Lemma change_location_sets_name rand llm name m :
  current_location (self (final (change_location rand llm name m))) = name.
Proof.
  unfold change_location.
  erewrite final_bind_val by reflexivity. cbv beta zeta.
  erewrite final_bind_val by reflexivity.
  match goal with
  | |- current_location (self (final (?rest ?m1))) = _ =>
      assert (H : keeps (same current_location) rest)
        by (unfold_ops; keeps_walk same_leaf);
      transitivity (current_location (self m1)); [exact (H m1) | reflexivity]
  end.
Qed.

Lemma cave_text_tags rand llm :
  process_response_tags rand llm cave_text
  = (ret tt;; ret tt;; change_location rand llm "Dark Cave";; ret tt).
Proof. reflexivity. Qed.

(** C5, as the spec words it, fails: the text shown has no line break. *)
Lemma cave_text_shown_differs :
  remove_tags cave_text <> "You see a cave." ++ nl ++ "It is cold.".
Proof. vm_compute. discriminate. Qed.

(** C5, amended.  For the text of the example the text shown is
    "You see a cave. It is cold.": the tag and the rest of its line, line
    break included, are cut out and the pieces joined; and in every state,
    returned or raised, the name of the current location is "Dark Cave"
    afterwards. *)
Theorem cave_text_stripped_and_location_named :
  remove_tags cave_text = "You see a cave. It is cold." /\
  forall rand llm m,
    current_location (self (final (process_response_tags rand llm cave_text m)))
    = "Dark Cave".
Proof.
  split; [vm_compute; reflexivity |].
  intros rand llm m. rewrite cave_text_tags.
  change (current_location
            (self (final ((change_location rand llm "Dark Cave";; ret tt) m)))
          = "Dark Cave").
  unfold bind at 1.
  pose proof (change_location_sets_name rand llm "Dark Cave" m) as H.
  destruct (change_location rand llm "Dark Cave" m); exact H.
Qed.

(** ** C6: a tag with nothing after it *)

Lemma bare_event_tags rand llm :
  process_response_tags rand llm "The trail ends. [EVENT]"
  = (ret tt;; ret tt;; ret tt;; add_to_knowledge_base "").
Proof. reflexivity. Qed.

(** C6, as the code has it.  A tag at the very end of the response has the
    empty payload and is dispatched all the same: in every state a bare
    [EVENT] tag appends the entry with the empty text to the log; from the
    start state a bare [COMBAT] tag opens an encounter with an enemy of
    the empty name, and a bare [ITEM] tag puts an item of the empty name
    into the inventory. *)
Theorem empty_payload_is_dispatched :
  (forall rand llm m,
      exists m' older,
        process_response_tags rand llm "The trail ends. [EVENT]" m = Val tt m' /\
        knowledge_base (self m') = (older ++ [stamped (self m) ""])%list) /\
  (let m' := final (process_response_tags (draws []) (model_says "")
                      "A shadow moves. [COMBAT]" (boot demo_game)) in
   in_combat (self m') = true /\
   option_map e_name (current_enemy (self m')) = Some "" /\
   knowledge_base (self m') = ["Turn 0: Encountered and fought "]) /\
  (let m' := final (process_response_tags (draws []) (model_says "")
                      "Something glints. [ITEM]" (boot demo_game)) in
   map i_name (inventory (player (self m'))) = [""] /\
   map i_name (items (world_data (self m'))) = [""]).
Proof.
  split; [| split; vm_compute; repeat split; reflexivity].
  intros rand llm m. rewrite bare_event_tags.
  destruct (add_to_knowledge_base_spec "" m)
    as (m' & dropped & older & Hrun & _ & _ & _ & Hlast & _).
  exists m', older. split; [| exact Hlast].
  change ((add_to_knowledge_base "") m = Val tt m'). exact Hrun.
Qed.

(** ** C7: the effect of an item *)

Lemma span_digits_spec s :
  s = (fst (span_digits s) ++ snd (span_digits s))%string /\
  all_chars is_digit (fst (span_digits s)) = true /\
  no_digit_ahead (snd (span_digits s)) = true.
Proof.
  induction s as [| c r IH]; cbn; [auto |].
  destruct (is_digit c) eqn:Hc.
  - destruct (span_digits r) as [d t]. cbn in *. destruct IH as (E & D & N).
    rewrite Hc, D. repeat split; [now rewrite <- E | exact N].
  - cbn. rewrite Hc. auto.
Qed.

(** [re.search(r'\d+', s)] finds the first integer literal: the text
    before the match has no digit, the match is a non-empty run of digits,
    and no digit follows it. *)
Lemma search_digits_first s :
  match search_digits s with
  | Some d =>
      exists before after,
        s = (before ++ d ++ after)%string /\
        all_chars (fun c => negb (is_digit c)) before = true /\
        d <> EmptyString /\
        all_chars is_digit d = true /\
        no_digit_ahead after = true
  | None => all_chars (fun c => negb (is_digit c)) s = true
  end.
Proof.
  induction s as [| c r IH]; [reflexivity |].
  cbn [search_digits]. destruct (is_digit c) eqn:Hc.
  - destruct (span_digits_spec (String c r)) as (E & D & N).
    exists EmptyString, (snd (span_digits (String c r))).
    repeat split; try assumption.
    cbn [span_digits]. rewrite Hc. destruct (span_digits r). discriminate.
  - destruct (search_digits r) as [d |].
    + destruct IH as (before & after & E & B & Hd & D & N).
      exists (String c before), after. cbn. rewrite Hc, B, <- E. auto.
    + cbn. now rewrite Hc, IH.
Qed.

(** [re.search(r'\+(\d+)', s)] finds a "+" with a full run of digits
    after it. *)
Lemma search_plus_digits_found s d :
  search_plus_digits s = Some d ->
  exists before after,
    s = (before ++ "+" ++ d ++ after)%string /\
    d <> EmptyString /\
    all_chars is_digit d = true /\
    no_digit_ahead after = true.
Proof.
  induction s as [| c r IH]; [discriminate |].
  cbn [search_plus_digits]. intros H.
  assert (Hrest : search_plus_digits r = Some d ->
                  exists before after,
                    String c r = (before ++ "+" ++ d ++ after)%string /\
                    d <> EmptyString /\
                    all_chars is_digit d = true /\
                    no_digit_ahead after = true).
  { intros Hr. destruct (IH Hr) as (before & after & E & Hd & D & N).
    exists (String c before), after.
    split; [rewrite E; reflexivity | auto]. }
  destruct (Ascii.eqb c "+") eqn:Hc; [| auto].
  destruct (span_digits_spec r) as (E & D & N).
  destruct (fst (span_digits r)) as [| x ds] eqn:Hfst; [auto |].
  injection H as <-. apply Ascii.eqb_eq in Hc. subst c.
  exists EmptyString, (snd (span_digits r)).
  split; [rewrite E at 1; reflexivity |].
  split; [discriminate | split; assumption].
Qed.

Lemma int_of_digits_from_nonneg d : forall acc,
  all_chars is_digit d = true -> 0 <= acc -> 0 <= int_of_digits_from acc d.
Proof.
  induction d as [| c r IH]; intros acc Hd Hacc;
    cbn [int_of_digits_from all_chars] in *; [exact Hacc |].
  apply andb_prop in Hd. destruct Hd as [Hc Hr].
  apply IH; [exact Hr |].
  unfold is_digit in Hc. apply andb_prop in Hc. destruct Hc as [Hlo _].
  apply N.leb_le in Hlo. lia.
Qed.

(** The amount a healing consumable restores is never negative. *)
Lemma heal_amount_nonneg effect :
  0 <= match search_digits effect with
       | Some d => int_of_digits d
       | None => 20
       end.
Proof.
  pose proof (search_digits_first effect) as H.
  destruct (search_digits effect) as [d |]; [| lia].
  destruct H as (_ & _ & _ & _ & _ & D & _).
  apply int_of_digits_from_nonneg; [exact D | lia].
Qed.

(** A digit, its value and the Standard Library's reading of it. *)
Lemma digit_cases c :
  is_digit c = true ->
  exists k : Z, 0 <= k <= 9 /\ Z.of_N (N_of_ascii c) - 48 = k /\
    forall u, uint_of_char c (Some u)
              = Some (match k with
                      | 0 => Decimal.D0 u | 1 => Decimal.D1 u | 2 => Decimal.D2 u
                      | 3 => Decimal.D3 u | 4 => Decimal.D4 u | 5 => Decimal.D5 u
                      | 6 => Decimal.D6 u | 7 => Decimal.D7 u | 8 => Decimal.D8 u
                      | _ => Decimal.D9 u
                      end).
Proof.
  destruct c as [[] [] [] [] [] [] [] []]; try discriminate; intros _;
    eexists; (split; [| split; [reflexivity | reflexivity]]);
    cbv; split; discriminate.
Qed.

Lemma uint_of_digits d :
  all_chars is_digit d = true ->
  exists u, NilEmpty.uint_of_string d = Some u /\
    (forall acc, Z.pos (Pos.of_uint_acc u acc) = int_of_digits_from (Z.pos acc) d) /\
    Z.of_N (Pos.of_uint u) = int_of_digits_from 0 d.
Proof.
  induction d as [| c r IH]; intros Hd.
  - exists Decimal.Nil. repeat split.
  - cbn [all_chars] in Hd. apply andb_prop in Hd. destruct Hd as [Hc Hr].
    destruct (IH Hr) as (u & Hu & Hacc & Hzero).
    destruct (digit_cases c Hc) as (k & Hk & Hval & Hchar).
    cbn [NilEmpty.uint_of_string int_of_digits_from]. rewrite Hu, Hchar, Hval.
    eexists. split; [reflexivity |].
    assert (K : k = 0 \/ k = 1 \/ k = 2 \/ k = 3 \/ k = 4 \/ k = 5 \/ k = 6
                \/ k = 7 \/ k = 8 \/ k = 9) by lia.
    clear Hchar Hval Hk.
    destruct K as [-> | [-> | [-> | [-> | [-> | [-> | [-> | [-> | [-> | ->]]]]]]]]];
      (split;
       [intros acc; cbn [Pos.of_uint_acc]; rewrite Hacc; f_equal; lia
       | cbn [Pos.of_uint Z.of_N]; try rewrite Hacc; try exact Hzero;
         f_equal]).
Qed.

(** [int] of a string of digits is the number the digits denote. *)
Lemma decimal_value_int_of_digits d :
  all_chars is_digit d = true -> decimal_value d = Some (int_of_digits d).
Proof.
  intros Hd. destruct (uint_of_digits d Hd) as (u & Hu & _ & Hzero).
  unfold decimal_value, int_of_digits, Z.of_uint. now rewrite Hu, <- Hzero.
Qed.

Lemma span_digits_run d after :
  all_chars is_digit d = true -> no_digit_ahead after = true ->
  span_digits (d ++ after) = (d, after).
Proof.
  intros Hd Hafter. induction d as [| c r IH].
  - destruct after as [| a t]; [reflexivity |].
    cbn in *. apply negb_true_iff in Hafter. now rewrite Hafter.
  - cbn [all_chars] in Hd. apply andb_prop in Hd. destruct Hd as [Hc Hr].
    cbn. rewrite Hc, (IH Hr). reflexivity.
Qed.

(** [re.search(r'\d+', s)] returns the leftmost run of digits, whole. *)
Lemma search_digits_leftmost before d after :
  all_chars (fun c => negb (is_digit c)) before = true ->
  d <> EmptyString -> all_chars is_digit d = true ->
  no_digit_ahead after = true ->
  search_digits (before ++ d ++ after) = Some d.
Proof.
  intros Hb Hne Hd Hafter. induction before as [| c b IH].
  - destruct d as [| c r]; [congruence |].
    pose proof (span_digits_run _ _ Hd Hafter) as Hspan.
    cbn [all_chars] in Hd. apply andb_prop in Hd. destruct Hd as [Hc _].
    change (("" ++ String c r ++ after)%string) with (String c (r ++ after)).
    cbn [search_digits]. rewrite Hc.
    change (String c (r ++ after)) with ((String c r ++ after)%string).
    now rewrite Hspan.
  - cbn [all_chars] in Hb. apply andb_prop in Hb. destruct Hb as [Hc Hb].
    apply negb_true_iff in Hc. cbn. rewrite Hc. exact (IH Hb).
Qed.

Lemma search_digits_none s :
  all_chars (fun c => negb (is_digit c)) s = true -> search_digits s = None.
Proof.
  induction s as [| c r IH]; [reflexivity |].
  cbn [all_chars search_digits]. intros H. apply andb_prop in H.
  destruct H as [Hc Hr]. apply negb_true_iff in Hc. rewrite Hc. exact (IH Hr).
Qed.

Lemma span_digits_no_run s :
  no_digit_ahead s = true -> fst (span_digits s) = EmptyString.
Proof.
  destruct s as [| c r]; [reflexivity |].
  cbn. intros H. apply negb_true_iff in H. now rewrite H.
Qed.

(** [re.search(r'\+(\d+)', s)] returns the digits after the leftmost "+"
    that a digit follows, whole. *)
Lemma search_plus_digits_leftmost before d after :
  has_plus_digit before = false ->
  d <> EmptyString -> all_chars is_digit d = true ->
  no_digit_ahead after = true ->
  search_plus_digits (before ++ "+" ++ d ++ after) = Some d.
Proof.
  intros Hb Hne Hd Hafter. induction before as [| c b IH].
  - cbn. rewrite (span_digits_run _ _ Hd Hafter). cbn [fst].
    destruct d; [congruence | reflexivity].
  - cbn [has_plus_digit] in Hb. apply orb_false_iff in Hb. destruct Hb as [Hc Hb].
    change ((String c b ++ "+" ++ d ++ after)%string)
      with (String c (b ++ "+" ++ d ++ after)).
    cbn [search_plus_digits]. destruct (Ascii.eqb c "+"); [| exact (IH Hb)].
    cbn [andb] in Hc. apply negb_false_iff in Hc.
    rewrite span_digits_no_run; [exact (IH Hb) |].
    destruct b as [| x b']; [reflexivity | exact Hc].
Qed.

Lemma search_plus_digits_none s :
  has_plus_digit s = false -> search_plus_digits s = None.
Proof.
  induction s as [| c r IH]; [reflexivity |].
  cbn [has_plus_digit search_plus_digits]. intros H.
  apply orb_false_iff in H. destruct H as [Hc Hr].
  destruct (Ascii.eqb c "+"); [| exact (IH Hr)].
  cbn [andb] in Hc. apply negb_false_iff in Hc.
  rewrite (span_digits_no_run _ Hc). exact (IH Hr).
Qed.

(** What the code computes from the two searches is the first integer and
    the number after the leftmost "+". *)
Lemma first_integer_search s default :
  first_integer s default
    match search_digits s with Some d => int_of_digits d | None => default end.
Proof.
  split.
  - intros H. now rewrite (search_digits_none _ H).
  - intros before d after -> Hb Hne Hd Ha.
    rewrite (search_digits_leftmost _ _ _ Hb Hne Hd Ha).
    now apply decimal_value_int_of_digits.
Qed.

Lemma plus_integer_search s default :
  plus_integer s default
    match search_plus_digits s with Some d => int_of_digits d | None => default end.
Proof.
  split.
  - intros H. now rewrite (search_plus_digits_none _ H).
  - intros before d after -> Hb Hne Hd Ha.
    rewrite (search_plus_digits_leftmost _ _ _ Hb Hne Hd Ha).
    now apply decimal_value_int_of_digits.
Qed.

(** One of the two cases of [first_integer] always applies. *)
Lemma first_integer_total s :
  all_chars (fun c => negb (is_digit c)) s = true \/
  exists before d after,
    s = (before ++ d ++ after)%string /\
    all_chars (fun c => negb (is_digit c)) before = true /\
    d <> EmptyString /\ all_chars is_digit d = true /\
    no_digit_ahead after = true.
Proof.
  pose proof (search_digits_first s) as H.
  destruct (search_digits s) as [d |]; [right | now left].
  destruct H as (before & after & H). exists before, d, after. tauto.
Qed.

(** One of the two cases of [plus_integer] always applies. *)
Lemma plus_integer_total s :
  has_plus_digit s = false \/
  exists before d after,
    s = (before ++ "+" ++ d ++ after)%string /\
    has_plus_digit before = false /\
    d <> EmptyString /\ all_chars is_digit d = true /\
    no_digit_ahead after = true.
Proof.
  induction s as [| c r IH]; [now left |].
  cbn [has_plus_digit].
  destruct (Ascii.eqb c "+" && negb (no_digit_ahead r)) eqn:Hc.
  - right. apply andb_prop in Hc. destruct Hc as [Hplus Hdig].
    apply Ascii.eqb_eq in Hplus. subst c.
    destruct (span_digits_spec r) as (E & D & N).
    exists EmptyString, (fst (span_digits r)), (snd (span_digits r)).
    split; [cbn; now rewrite <- E |]. split; [reflexivity |].
    split; [| split; assumption].
    intros Hempty. rewrite Hempty in E. cbn in E.
    rewrite <- E in N. rewrite N in Hdig. discriminate.
  - destruct IH as [Hnone | (before & d & after & E & Hb & Hrest)].
    + left. exact Hnone.
    + right. exists (String c before), d, after.
      split; [rewrite E; reflexivity |].
      split; [| exact Hrest].
      cbn [has_plus_digit]. rewrite Hb, orb_false_r.
      destruct before as [| x b'].
      * now rewrite andb_false_r.
      * subst r. exact Hc.
Qed.

(** C7.  For the first inventory item whose name matches: a consumable
    whose effect mentions "heal" or "health" is removed, heals by the first
    integer literal of the effect text (the leftmost run of digits, taken
    whole; 20 when the text has no digit) up to [max_health], and the
    message reports the health actually gained; a weapon adds the number
    after the leftmost "+" of its effect text that a digit follows (5 when
    there is none) to attack, armor likewise (3) to defense, both staying
    in the inventory.  With health 30 of 100, attack 10 and defense 5:
    "Heal 50 health" gives 80, "+7 damage" gives attack 17, and "Boost 3"
    gives attack 15 on a weapon and defense 8 on armor. *)
Theorem use_item_effects name m idx item :
  find_indexed (inventory (player (self m))) name = Some (idx, item) ->
  let p := player (self m) in
  (lower (i_type item) = "consumable" ->
   contains "heal" (lower (i_effect item))
   || contains "health" (lower (i_effect item)) = true ->
   exists m' amount,
     use_item name m = Val tt m' /\
     first_integer (i_effect item) 20 amount /\
     player (self m')
     = set_health (Z.min (max_health p) (health p + amount))
         (set_inventory (pop_at idx (inventory p)) p) /\
     stdout m'
     = (stdout m
        ++ [(Colors.GREEN ++ nl ++ "You used " ++ i_name item ++ " and recovered "
             ++ str_of_Z (Z.min (max_health p) (health p + amount) - health p)
             ++ " health!")%string])%list) /\
  (lower (i_type item) = "weapon" ->
   exists m' bonus,
     use_item name m = Val tt m' /\
     plus_integer (i_effect item) 5 bonus /\
     player (self m') = set_attack (attack p + bonus) p) /\
  (lower (i_type item) = "armor" ->
   exists m' bonus,
     use_item name m = Val tt m' /\
     plus_integer (i_effect item) 3 bonus /\
     player (self m') = set_defense (defense p + bonus) p) /\
  (let run := fun n => player (self (final (use_item n (boot packed_game)))) in
   health (run "elixir") = 80 /\
   inventory (run "elixir") = [sabre; club; buckler] /\
   attack (run "sabre") = 17 /\
   attack (run "club") = 15 /\
   defense (run "buckler") = 8 /\
   inventory (run "sabre") = [potion; sabre; club; buckler]).
Proof.
  intros Hfound p.
  split; [| split; [| split]].
  - intros Htype Hheal. unfold use_item. exec. rewrite Hfound, Htype.
    change (String.eqb "consumable" "consumable") with true. exec.
    rewrite Hheal. exec.
    eexists.
    exists (match search_digits (i_effect item) with
            | Some d => int_of_digits d
            | None => 20
            end).
    split; [reflexivity |].
    split; [apply first_integer_search |].
    exec. split; reflexivity.
  - intros Htype. unfold use_item. exec. rewrite Hfound, Htype.
    change (String.eqb "weapon" "consumable") with false.
    change (String.eqb "weapon" "weapon") with true. exec.
    eexists.
    exists (match search_plus_digits (i_effect item) with
            | Some d => int_of_digits d
            | None => 5
            end).
    split; [reflexivity |].
    split; [apply plus_integer_search | reflexivity].
  - intros Htype. unfold use_item. exec. rewrite Hfound, Htype.
    change (String.eqb "armor" "consumable") with false.
    change (String.eqb "armor" "weapon") with false.
    change (String.eqb "armor" "armor") with true. exec.
    eexists.
    exists (match search_plus_digits (i_effect item) with
            | Some d => int_of_digits d
            | None => 3
            end).
    split; [reflexivity |].
    split; [apply plus_integer_search | reflexivity].
  - vm_compute. repeat split; reflexivity.
Qed.

Lemma use_item_effects_witness :
  exists m',
    use_item "ELIXIR" (boot packed_game) = Val tt m' /\
    health (player (self m')) = 80 /\
    last (stdout m') ""
    = Colors.GREEN ++ nl ++ "You used Elixir and recovered 50 health!".
Proof.
  destruct (use_item_effects "ELIXIR" (boot packed_game) 0%nat potion eq_refl)
    as [Hheal _].
  destruct (Hheal eq_refl eq_refl) as (m' & amount & Hrun & [_ Hread] & Hp & Hout).
  assert (Hamount : amount = 50).
  { specialize (Hread "Heal " "50" " health" eq_refl eq_refl
                  ltac:(discriminate) eq_refl eq_refl).
    now injection Hread. }
  subst amount.
  exists m'. split; [exact Hrun |].
  split; [rewrite Hp | rewrite Hout]; reflexivity.
Defined.

(** ** C9: health stays in range *)

#[export] Instance capped_preorder : Preorder capped.
Proof.
  split; unfold capped.
  - intros g. split; [reflexivity | auto].
  - intros a b c [M1 H1] [M2 H2]. split; [congruence |].
    intros Hm Ha. apply H2; [rewrite M1; exact Hm | apply H1; assumption].
Qed.

#[export] Instance range_kept_preorder : Preorder range_kept.
Proof.
  split; unfold range_kept.
  - intros g. split; [reflexivity | auto].
  - intros a b c [M1 H1] [M2 H2]. split; [congruence | auto].
Qed.

#[export] Instance encounter_kept_preorder : Preorder encounter_kept.
Proof.
  split; unfold encounter_kept.
  - intros g. split; [reflexivity | auto].
  - intros a b c [M1 H1] [M2 H2]. split; [congruence |].
    intros Ha Hok. apply H2; [| auto].
    unfold enemies_alive in *. now rewrite M1.
Qed.

Lemma keeps_add_to_knowledge_base R event :
  (forall v g, R g (set_knowledge_base v g)) ->
  keeps R (add_to_knowledge_base event).
Proof.
  intros HR m.
  destruct (add_to_knowledge_base_spec event m)
    as (m' & dropped & older & Hrun & Hself & _).
  rewrite Hrun. cbn [final]. rewrite Hself. apply HR.
Qed.

Lemma add_to_knowledge_base_run event m :
  exists kb',
    add_to_knowledge_base event m
    = Val tt (set_self (set_knowledge_base kb' (self m)) m).
Proof.
  unfold add_to_knowledge_base, bind, get_self, modify_self.
  cbn [self set_self knowledge_base set_knowledge_base].
  destruct (_ <? _)%nat; eexists; unfold ret, set_self; cbn; reflexivity.
Qed.

(** Goals about one update of the object, for the three relations. *)
Ltac arith_leaf :=
  idtac;
  lazymatch goal with
  | |- keeps _ (add_to_knowledge_base _) =>
      apply keeps_add_to_knowledge_base; intros; arith_leaf
  | |- _ =>
      unfold capped, range_kept, health_in_range;
      cbn [player set_player max_health health set_health set_attack set_defense
           set_inventory set_knowledge_base set_world_data set_current_location
           set_turn_count set_in_combat set_current_enemy];
      try match goal with
          | |- context [search_digits ?e] => pose proof (heal_amount_nonneg e)
          end;
      split; [reflexivity | intros; Z.div_mod_to_equations; lia]
  end.

Lemma game_loop_step_capped rand llm stdin ap sp :
  keeps capped (game_loop_step rand llm stdin ap sp).
Proof. unfold_ops. keeps_walk arith_leaf. Qed.

Lemma use_item_range_kept name : keeps range_kept (use_item name).
Proof. unfold_ops. keeps_walk arith_leaf. Qed.

Lemma exploration_turn_range_kept rand llm stdin ap sp :
  keeps range_kept (exploration_turn rand llm stdin ap sp).
Proof. unfold_ops. keeps_walk arith_leaf. Qed.

Lemma game_loop_step_same_enemies rand llm stdin ap sp :
  keeps (same (fun g => enemies (world_data g)))
        (game_loop_step rand llm stdin ap sp).
Proof. unfold_ops. keeps_walk same_leaf. Qed.

Lemma game_loop_step_same_max_health rand llm stdin ap sp :
  keeps (same (fun g => max_health (player g)))
        (game_loop_step rand llm stdin ap sp).
Proof. unfold_ops. keeps_walk same_leaf. Qed.

(** *** Exploration keeps an encounter sound *)

Lemma find_by_name_In {A} (name_of : A -> string) l n x :
  find_by_name name_of l n = Some x -> In x l.
Proof. unfold find_by_name. intros H. now apply find_some in H. Qed.

Lemma encounter_kept_same g g' :
  enemies (world_data g') = enemies (world_data g) ->
  in_combat g' = in_combat g ->
  current_enemy g' = current_enemy g ->
  encounter_kept g g'.
Proof.
  intros He Hc Hcur. split; [exact He |].
  unfold encounter_ok. rewrite Hc, Hcur. auto.
Qed.

Lemma start_combat_encounter_kept rand name :
  keeps encounter_kept (start_combat rand name).
Proof.
  intros m. unfold start_combat. exec.
  destruct (find_by_name e_name (enemies (world_data (self m))) name)
    as [e |] eqn:Hfind.
  - exec.
    match goal with
    | |- context [add_to_knowledge_base ?ev ?m1] =>
        destruct (add_to_knowledge_base_run ev m1) as [kb Hrun]; rewrite Hrun
    end.
    exec. cbn [final self]. split; [reflexivity |].
    intros Halive _ _. exists e. split; [reflexivity |].
    apply find_by_name_In in Hfind.
    unfold enemies_alive in Halive. rewrite Forall_forall in Halive. auto.
  - unfold randint.
    destruct (1 <=? Z.min 10 (turn_count (self m) / 5 + 1)) eqn:Hrange.
    + exec.
      match goal with
      | |- context [add_to_knowledge_base ?ev ?m1] =>
          destruct (add_to_knowledge_base_run ev m1) as [kb Hrun]; rewrite Hrun
      end.
      exec. cbn [final self]. split; [reflexivity |].
      intros _ _ _. eexists. split; [reflexivity |]. cbn [e_health].
      apply Z.leb_le in Hrange.
      match goal with
      | |- context [?k mod ?n] =>
          pose proof (Z.mod_pos_bound k n ltac:(lia))
      end.
      lia.
    + exec. cbn [final]. apply pre_refl.
Qed.

Ltac encounter_leaf :=
  idtac;
  lazymatch goal with
  | |- keeps _ (start_combat _ _) => apply start_combat_encounter_kept
  | |- keeps _ (add_to_knowledge_base _) =>
      apply keeps_add_to_knowledge_base; intros;
      apply encounter_kept_same; reflexivity
  | |- encounter_kept _ _ => apply encounter_kept_same; reflexivity
  end.

Lemma exploration_turn_encounter_kept rand llm stdin ap sp :
  keeps encounter_kept (exploration_turn rand llm stdin ap sp).
Proof.
  unfold exploration_turn, quit_game, show_screen, process_player_action,
    process_response_tags, change_location, find_item.
  keeps_walk encounter_leaf.
Qed.

(** *** A round of combat keeps health at zero or above *)

Ltac exec_in H :=
  cbv beta iota zeta delta
    [bind ret raise get_self modify_self modify_player modify_enemy cur_enemy
     print next_raw random input client_call set_self negb] in H;
  cbn [self stdout rand_pos llm_pos stdin_pos
       world_data knowledge_base player current_location turn_count in_combat
       current_enemy set_world_data set_knowledge_base set_player
       set_current_location set_turn_count set_in_combat set_current_enemy
       p_name health max_health attack defense inventory skills
       set_health set_attack set_defense set_inventory
       w_name w_description w_theme plots characters locations enemies items
       set_locations set_items
       e_name e_difficulty e_health e_attack e_defense e_description
       set_e_health] in H.

(** Runs a computation that returned, in [H], splitting on what the run
    depends on. *)
Ltac crunch H :=
  repeat (exec_in H;
          match type of H with
          | context [add_to_knowledge_base ?ev ?m1] =>
              let kb := fresh "kb" in
              let Hr := fresh "Hr" in
              destruct (add_to_knowledge_base_run ev m1) as [kb Hr];
              rewrite Hr in H; clear Hr
          | context [match ?x with _ => _ end] =>
              lazymatch x with
              | context [match _ with _ => _ end] => fail
              | _ => destruct x eqn:?
              end
          end);
  exec_in H.

(** The machine of a run that returned, from [H : Val _ _ = Val _ m']. *)
Ltac landed H m' :=
  apply (f_equal final) in H; cbn [final] in H; subst m'.

(** What a lemma [keeps R c] says of a run of [c] that is known. *)
Ltac from_keeps L Hrun :=
  let X := fresh "K" in
  match type of Hrun with
  | ?c ?m = _ =>
      pose proof (L m) as X; rewrite Hrun in X; cbn [final] in X;
      unfold same in X
  end.

Lemma player_attack_same_player rand : keeps (same player) (player_attack rand).
Proof. unfold_ops. keeps_walk same_leaf. Qed.

Lemma player_attack_val rand m m' :
  player_attack rand m = Val tt m' ->
  exists e', current_enemy (self m') = Some e'.
Proof.
  intros H. unfold player_attack, randint in H. crunch H;
    try discriminate H; landed H m'; exec; eauto.
Qed.

Lemma attempt_flee_val rand m m' :
  attempt_flee rand m = Val tt m' ->
  current_enemy (self m') = current_enemy (self m) /\
  in_combat (self m') = in_combat (self m).
Proof.
  intros H. unfold attempt_flee, randint in H. crunch H;
    try discriminate H; landed H m'; exec; split; congruence.
Qed.

Lemma use_item_same_encounter name :
  keeps (same (fun g => (in_combat g, current_enemy g))) (use_item name).
Proof. unfold_ops. keeps_walk same_leaf. Qed.

Lemma player_defend_same_encounter rand :
  keeps (same (fun g => (in_combat g, current_enemy g))) (player_defend rand).
Proof. unfold_ops. keeps_walk same_leaf. Qed.

Lemma enemy_attack_same_encounter rand :
  keeps (same (fun g => (in_combat g, current_enemy g))) (enemy_attack rand).
Proof. unfold_ops. keeps_walk same_leaf. Qed.

Lemma enemy_attack_same_max_health rand :
  keeps (same (fun g => max_health (player g))) (enemy_attack rand).
Proof. unfold_ops. keeps_walk same_leaf. Qed.

Lemma resolve_combat_val rand stdin won m m' :
  resolve_combat rand stdin won m = Val tt m' ->
  in_combat (self m') = false /\
  max_health (player (self m')) = max_health (player (self m)) /\
  health (player (self m'))
  = if won
    then Z.min (max_health (player (self m)))
               (health (player (self m)) + max_health (player (self m)) / 10)
    else max_health (player (self m)) / 4.
Proof.
  intros H. unfold resolve_combat, generate_combat_reward, choice in H.
  destruct won; crunch H;
    try discriminate H; landed H m'; exec; repeat split; reflexivity.
Qed.

Lemma player_defend_capped rand : keeps capped (player_defend rand).
Proof. unfold_ops. keeps_walk arith_leaf. Qed.

Lemma attempt_flee_capped rand : keeps capped (attempt_flee rand).
Proof. unfold_ops. keeps_walk arith_leaf. Qed.

Lemma after_action_sound rand stdin m m' e :
  after_action rand stdin m = Val tt m' ->
  current_enemy (self m) = Some e ->
  0 <= max_health (player (self m)) ->
  (e_health e <= 0 -> 0 <= health (player (self m))) ->
  0 <= health (player (self m')) /\ encounter_ok (self m').
Proof.
  intros H He Hmax Hwon. unfold after_action in H. exec_in H.
  rewrite He in H. exec_in H.
  destruct (e_health e <=? 0) eqn:Hdead.
  - apply Z.leb_le in Hdead.
    apply resolve_combat_val in H. destruct H as (Hc & _ & Hh).
    split.
    + rewrite Hh. specialize (Hwon Hdead). Z.div_mod_to_equations. lia.
    + intros Hin. congruence.
  - apply Z.leb_gt in Hdead.
    destruct (enemy_attack rand m) as [[] m1 | ] eqn:Hatk; [| discriminate H].
    from_keeps (enemy_attack_same_encounter rand) Hatk.
    from_keeps (enemy_attack_same_max_health rand) Hatk.
    exec_in H.
    destruct (health (player (self m1)) <=? 0) eqn:Hdown.
    + apply resolve_combat_val in H. destruct H as (Hc & _ & Hh).
      split.
      * rewrite Hh. Z.div_mod_to_equations. lia.
      * intros Hin. congruence.
    + apply Z.leb_gt in Hdown. landed H m'. split; [lia |].
      intros _. exists e. split; [congruence | exact Hdead].
Qed.

(** A round of combat that returns, from a state with health in range and
    a live enemy, leaves health at zero or above and the encounter, if it
    goes on, with a live enemy. *)
Lemma combat_turn_sound rand stdin m m' :
  combat_turn rand stdin m = Val tt m' ->
  health_in_range (self m) ->
  encounter_ok (self m) ->
  in_combat (self m) = true ->
  0 <= health (player (self m')) /\ encounter_ok (self m').
Proof.
  intros H Hrange Hok Hin.
  destruct (Hok Hin) as (e & He & Halive).
  assert (Hmax : 0 <= max_health (player (self m)))
    by (unfold health_in_range in Hrange; lia).
  unfold combat_turn in H. fold (after_action rand stdin) in H.
  exec_in H. rewrite He in H. exec_in H.
  set (action := stdin (stdin_pos m)) in *.
  match type of H with
  | context [mkMachine ?g ?o ?r ?l ?i] => set (m0 := mkMachine g o r l i) in *
  end.
  assert (Hself : self m0 = self m) by reflexivity.
  clearbody m0.
  destruct (in_list (lower action) ["attack"; "a"]).
  { exec_in H.
    destruct (player_attack rand m0) as [[] m1 | ] eqn:Hact; [| discriminate H].
    exec_in H.
    from_keeps (player_attack_same_player rand) Hact.
    destruct (player_attack_val rand m0 m1 Hact) as [e' He'].
    eapply after_action_sound; [exact H | exact He' | |].
    - rewrite K, Hself. exact Hmax.
    - intros _. rewrite K, Hself. unfold health_in_range in Hrange. lia. }
  destruct (startswith (lower action) "use ").
  { exec_in H.
    destruct (use_item _ m0) as [[] m1 | ] eqn:Hact; [| discriminate H].
    exec_in H.
    from_keeps (use_item_same_encounter (strip (slice_from 4 action))) Hact.
    from_keeps (use_item_range_kept (strip (slice_from 4 action))) Hact.
    injection K as _ Hcur. destruct K0 as [Hm _].
    eapply after_action_sound; [exact H | | |].
    - rewrite Hcur, Hself. exact He.
    - rewrite Hm, Hself. exact Hmax.
    - intros Hdead. lia. }
  destruct (in_list (lower action) ["defend"; "d"]).
  { exec_in H.
    destruct (player_defend rand m0) as [[] m1 | ] eqn:Hact; [| discriminate H].
    exec_in H.
    from_keeps (player_defend_same_encounter rand) Hact.
    from_keeps (player_defend_capped rand) Hact.
    injection K as _ Hcur. destruct K0 as [Hm _].
    eapply after_action_sound; [exact H | | |].
    - rewrite Hcur, Hself. exact He.
    - rewrite Hm, Hself. exact Hmax.
    - intros Hdead. lia. }
  destruct (in_list (lower action) ["flee"; "f"; "run"]).
  { exec_in H.
    destruct (attempt_flee rand m0) as [[] m1 | ] eqn:Hact; [| discriminate H].
    exec_in H.
    destruct (attempt_flee_val rand m0 m1 Hact) as [Hcur _].
    from_keeps (attempt_flee_capped rand) Hact. destruct K as [Hm _].
    eapply after_action_sound; [exact H | | |].
    - rewrite Hcur, Hself. exact He.
    - rewrite Hm, Hself. exact Hmax.
    - intros Hdead. lia. }
  exec_in H. landed H m'. cbn [self]. rewrite Hself.
  split; [unfold health_in_range in Hrange; lia | exact Hok].
Qed.

(** *** The invariant of the loop *)

Lemma game_loop_step_invariant rand llm stdin ap sp m m' :
  game_loop_step rand llm stdin ap sp m = Val tt m' ->
  loop_invariant (self m) -> loop_invariant (self m').
Proof.
  intros H (Hrange & Hok & Halive & Hmax).
  from_keeps (game_loop_step_same_max_health rand llm stdin ap sp) H.
  from_keeps (game_loop_step_same_enemies rand llm stdin ap sp) H.
  from_keeps (game_loop_step_capped rand llm stdin ap sp) H.
  destruct K1 as [_ Hcap].
  assert (Hup : health (player (self m')) <= max_health (player (self m')))
    by (unfold health_in_range in Hrange; apply Hcap; lia).
  assert (Hlow : 0 <= health (player (self m')) /\ encounter_ok (self m')).
  { unfold game_loop_step in H. exec_in H.
    destruct (in_combat (self m)) eqn:Hin.
    - now apply (combat_turn_sound rand stdin m m').
    - from_keeps (exploration_turn_range_kept rand llm stdin ap sp) H.
      from_keeps (exploration_turn_encounter_kept rand llm stdin ap sp) H.
      destruct K1 as [_ Hr]. destruct K2 as [_ He].
      split; [apply Hr in Hrange; unfold health_in_range in Hrange; lia |].
      now apply He. }
  destruct Hlow as [Hlow Hok'].
  repeat split; try assumption.
  - unfold enemies_alive in *. now rewrite K0.
  - congruence.
Qed.

Lemma reach_step_final rand llm stdin ap sp m0 m :
  reachable rand llm stdin ap sp m0 m ->
  returned (game_loop_step rand llm stdin ap sp m) = true ->
  reachable rand llm stdin ap sp m0 (final (game_loop_step rand llm stdin ap sp m)).
Proof.
  intros Hreach Hret. eapply reach_step; [exact Hreach |].
  destruct (game_loop_step rand llm stdin ap sp m) as [[] m' | ];
    [reflexivity | discriminate Hret].
Qed.

(** The two rounds "look" and "defend" against the Ghost. *)
Lemma ghost_run :
  let step := game_loop_step (draws [])
                (model_says "A chill creeps in. [COMBAT] Ghost")
                (typed ["look"; "defend"; ""]) plain_prompt "" in
  let m0 := boot (new_game "Adventurer" ghost_world "Starting Village") in
  let m2 := final (step (final (step m0))) in
  reachable (draws []) (model_says "A chill creeps in. [COMBAT] Ghost")
            (typed ["look"; "defend"; ""]) plain_prompt "" m0 m2 /\
  in_combat (self m2) = false /\
  health (player (self m2)) = -220.
Proof.
  cbv zeta. split.
  - apply reach_step_final;
      [apply reach_step_final; [apply reach_start |] |];
      vm_compute; reflexivity.
  - vm_compute. split; reflexivity.
Qed.

(** C9, as the spec words it, fails.  With an enemy in the registry that
    has no health left, the first defend takes the hit and the victory
    check comes before the defeat check: after the two rounds "look" (the
    model answers with a [COMBAT] tag for the Ghost) and "defend", the
    player is between actions with health -220. *)
Lemma health_can_fall_below_zero :
  ~ (forall rand llm stdin ap sp name w loc m,
        reachable rand llm stdin ap sp (boot (new_game name w loc)) m ->
        health_in_range (self m)).
Proof.
  intros Hall.
  pose proof ghost_run as Hrun. cbv zeta in Hrun.
  destruct Hrun as (Hreach & _ & Hh).
  apply Hall in Hreach. unfold health_in_range in Hreach.
  rewrite Hh in Hreach. lia.
Qed.

(** C9, amended.  Provided every enemy of the registry has positive
    health: in every state the loop reaches between two actions, from the
    object as it is created, health lies between 0 and [max_health], and
    [max_health] is the 100 it was created with; and no round of the loop,
    returned or raised, changes [max_health]. *)
Theorem health_stays_in_range rand llm stdin ap sp name w loc m0 m :
  enemies_alive w ->
  self m0 = new_game name w loc ->
  reachable rand llm stdin ap sp m0 m ->
  health_in_range (self m) /\
  max_health (player (self m)) = 100 /\
  max_health (player (self (final (game_loop_step rand llm stdin ap sp m))))
  = max_health (player (self m)).
Proof.
  intros Halive Hnew Hreach.
  assert (Hinv : loop_invariant (self m)).
  { induction Hreach as [| m m' _ IH Hstep].
    - rewrite Hnew.
      split; [unfold health_in_range; cbn; lia |].
      split; [intros Hc; discriminate Hc |].
      split; [exact Halive | reflexivity].
    - eapply game_loop_step_invariant; eassumption. }
  destruct Hinv as (Hrange & _ & _ & Hmax).
  repeat split; try assumption; try apply Hrange.
  apply (game_loop_step_same_max_health rand llm stdin ap sp m).
Qed.

(** The two rounds "look" and "attack" against a synthesized Wolf. *)
Lemma wolf_run :
  let step := game_loop_step (draws [])
                (model_says "A wolf steps out. [COMBAT] Wolf")
                (typed ["look"; "attack"]) plain_prompt "" in
  let m0 := boot (new_game "Adventurer" demo_world "Starting Village") in
  let m2 := final (step (final (step m0))) in
  reachable (draws []) (model_says "A wolf steps out. [COMBAT] Wolf")
            (typed ["look"; "attack"]) plain_prompt "" m0 m2 /\
  in_combat (self m2) = true /\
  health (player (self m2)) = 99.
Proof.
  cbv zeta. split.
  - apply reach_step_final;
      [apply reach_step_final; [apply reach_start |] |];
      vm_compute; reflexivity.
  - vm_compute. split; reflexivity.
Qed.

Lemma health_stays_in_range_witness :
  exists m2,
    in_combat (self m2) = true /\
    health (player (self m2)) = 99 /\
    health_in_range (self m2) /\
    max_health (player (self m2)) = 100.
Proof.
  pose proof wolf_run as Hrun. cbv zeta in Hrun.
  destruct Hrun as (Hreach & Hin & Hh).
  eexists. split; [exact Hin |]. split; [exact Hh |].
  destruct (health_stays_in_range _ _ _ _ _ "Adventurer" demo_world
              "Starting Village"
              (boot (new_game "Adventurer" demo_world "Starting Village")) _
              (Forall_nil _) eq_refl Hreach)
    as (Hr & Hm & _).
  split; assumption.
Defined.

(** ** C1: defending *)

(** [combat_turn] lets the enemy attack after every valid action,
    defending included.  Against the wolf (attack 12)
    with all draws 0, [player_defend] alone leaves the player at 99 (one hit
    of 1 from the reduced range against the raised defense); the whole
    round leaves 95: a second, ordinary hit of 4 follows, two random rolls
    are used, and both attack lines are printed. *)
Example defend_against_wolf :
  let m0 := boot wolf_fight in
  let defended := final (player_defend (draws []) m0) in
  let m' := final (combat_turn (draws []) (typed ["defend"]) m0) in
  health (player (self defended)) = 99 /\
  returned (combat_turn (draws []) (typed ["defend"]) m0) = true /\
  health (player (self m')) = 95 /\
  defense (player (self m')) = 5 /\
  rand_pos m' = 2%nat /\
  skipn 8 (stdout m')
  = [Colors.RED ++ "The Wolf attacks, but you block most of it! 1 damage taken.";
     Colors.RED ++ nl ++ "The Wolf attacks you for 4 damage!"].
Proof. vm_compute. repeat split; reflexivity. Qed.


Lemma defend_is_not_another_action s :
  in_list s ["defend"; "d"] = true ->
  in_list s ["attack"; "a"] = false /\ startswith s "use " = false.
Proof.
  unfold in_list. cbn [existsb].
  destruct (String.eqb_spec s "defend") as [E | _];
    [subst s; split; reflexivity |].
  destruct (String.eqb_spec s "d") as [E | _];
    [subst s; split; reflexivity |].
  discriminate.
Qed.

(** C1, as the code has it.  [combat_turn] lets the enemy attack after
    every valid action and makes no exception for defending.  In a round
    in which the player defends against a live enemy and after which the
    fight goes on, health has gone up by the recovery and down by two
    hits: the reduced one inside [player_defend] against the raised
    defense, and the ordinary one of [enemy_attack], from the full range,
    against the defense as it was before the round. *)
Theorem defend_round_takes_two_hits rand stdin m m' e :
  current_enemy (self m) = Some e ->
  0 < e_health e ->
  in_list (lower (stdin (stdin_pos m))) ["defend"; "d"] = true ->
  combat_turn rand stdin m = Val tt m' ->
  in_combat (self m') = true ->
  let p := player (self m) in
  let hit1 :=
    Z.max 1 (e_attack e / 3
             + Z.of_N (rand (rand_pos m)) mod (e_attack e / 2 - e_attack e / 3 + 1)
             - (defense p + defense p / 2) / 2) in
  let hit2 :=
    Z.max 1 (e_attack e / 2
             + Z.of_N (rand (S (rand_pos m))) mod (e_attack e - e_attack e / 2 + 1)
             - defense p / 2) in
  health (player (self m'))
  = Z.min (max_health p) (health p + max_health p / 20) - hit1 - hit2 /\
  1 <= hit1 /\ 1 <= hit2.
Proof.
  intros He Halive Hdef H Hin. cbv zeta.
  destruct (defend_is_not_another_action _ Hdef) as [Hatt Huse].
  split; [| split; lia].
  unfold combat_turn in H. exec_in H. rewrite He in H. exec_in H.
  rewrite Hatt, Huse, Hdef in H.
  unfold player_defend, enemy_attack, randint in H.
  crunch H; try discriminate H;
    repeat match goal with
           | Hx : Some _ = Some _ |- _ => injection Hx as Hx; subst
           | Hx : (e_health _ <=? 0) = true |- _ => apply Z.leb_le in Hx; lia
           end;
    first [ apply resolve_combat_val in H; destruct H as [Hc _]; congruence
          | landed H m'; exec;
            replace (defense (player (self m)) + defense (player (self m)) / 2
                     - defense (player (self m)) / 2)
              with (defense (player (self m))) by lia;
            reflexivity ].
Qed.

Lemma defend_round_takes_two_hits_witness :
  let m' := final (combat_turn (draws []) (typed ["defend"]) (boot wolf_fight)) in
  health (player (self m')) = Z.min 100 (100 + 100 / 20) - 1 - 4.
Proof.
  cbv zeta.
  destruct (defend_round_takes_two_hits (draws []) (typed ["defend"])
              (boot wolf_fight)
              (final (combat_turn (draws []) (typed ["defend"]) (boot wolf_fight)))
              wolf)
    as (Hh & _).
  - reflexivity.
  - reflexivity.
  - reflexivity.
  - apply val_of_returned. vm_compute. reflexivity.
  - vm_compute. reflexivity.
  - rewrite Hh. vm_compute. reflexivity.
Defined.

(** * Further properties of the combat operations *)

Lemma add_to_knowledge_base_lands event m :
  exists kb' dropped older,
    add_to_knowledge_base event m
    = Val tt (set_self (set_knowledge_base kb' (self m)) m) /\
    (knowledge_base (self m) ++ [stamped (self m) event] = dropped ++ kb')%list /\
    kb' = (older ++ [stamped (self m) event])%list /\
    (List.length kb' <= 50)%nat.
Proof.
  destruct (add_to_knowledge_base_run event m) as [kb' Hrun].
  destruct (add_to_knowledge_base_spec event m)
    as (m' & dropped & older & Hrun' & _ & Happ & _ & Hlast & Hcap).
  rewrite Hrun in Hrun'. apply (f_equal final) in Hrun'. cbn [final] in Hrun'.
  subst m'. cbn [self set_self knowledge_base set_knowledge_base] in *.
  exists kb', dropped, older. auto.
Qed.

Lemma roll_in_range (a b : Z) (k : N) :
  a <= b -> a <= a + Z.of_N k mod (b - a + 1) <= b.
Proof.
  intros Hab. pose proof (Z.mod_pos_bound (Z.of_N k) (b - a + 1) ltac:(lia)). lia.
Qed.

Lemma half_below (x : Z) : 0 <= x -> x / 2 <= x.
Proof. intros H. Z.div_mod_to_equations. lia. Qed.

Lemma third_below_half (x : Z) : 0 <= x -> x / 3 <= x / 2.
Proof. intros H. Z.div_mod_to_equations. lia. Qed.

(** Runs [H] and clears the cases in which an enemy that is there is
    missing. *)
Ltac settle H :=
  crunch H; try discriminate H;
  repeat match goal with
         | Hx : Some _ = Some _ |- _ => injection Hx as Hx; subst
         | Hx : None = Some _ |- _ => discriminate Hx
         | Hx : Some _ = None |- _ => discriminate Hx
         end.

(** Closes a case in which a roll range that is not empty is found empty. *)
Ltac empty_range :=
  match goal with
  | Hx : (_ <=? _) = false |- _ =>
      apply Z.leb_gt in Hx; Z.div_mod_to_equations; lia
  end.

(** X1.  [player_attack] against a present enemy, with a non-negative
    attack value, returns: the roll lies between half the attack and the
    attack, the damage is the roll less half the enemy's defense but at
    least 1, a critical draw below 0.25 adds half of that same damage, the
    enemy loses exactly that and nothing else of it changes, and the player
    is untouched. *)
Theorem player_attack_hurts_enemy rand m e :
  current_enemy (self m) = Some e ->
  0 <= attack (player (self m)) ->
  exists m' base,
    player_attack rand m = Val tt m' /\
    attack (player (self m)) / 2 <= base <= attack (player (self m)) /\
    let damage := Z.max 1 (base - e_defense e / 2) in
    let crit := if Qltb (unit_float (rand (S (rand_pos m)))) (25 # 100)
                then damage / 2 else 0 in
    1 <= damage /\ 0 <= crit /\
    current_enemy (self m')
    = Some (set_e_health (e_health e - damage - crit) e) /\
    player (self m') = player (self m) /\
    in_combat (self m') = in_combat (self m).
Proof.
  intros He Hatt. pose proof (half_below _ Hatt) as Hle.
  destruct (player_attack rand m) as [[] m' | ex mx] eqn:H;
    unfold player_attack, randint in H; settle H; try empty_range.
  all: landed H m'; eexists;
    exists (attack (player (self m)) / 2
            + Z.of_N (rand (rand_pos m))
              mod (attack (player (self m)) - attack (player (self m)) / 2 + 1));
    (split; [reflexivity |]);
    (split; [apply roll_in_range; exact Hle |]);
    exec; cbv zeta;
    (split; [lia |]);
    (split; [try (Z.div_mod_to_equations; lia); lia |]);
    (split; [| split; reflexivity]).
  - reflexivity.
  - unfold set_e_health. cbn [e_health]. do 2 f_equal. lia.
Qed.

Lemma player_attack_hurts_enemy_witness :
  exists m',
    player_attack (draws []) (boot wolf_fight) = Val tt m' /\
    player (self m') = player (self (boot wolf_fight)).
Proof.
  destruct (player_attack_hurts_enemy (draws []) (boot wolf_fight) wolf eq_refl)
    as (m' & base & Hrun & _ & Hrest).
  - vm_compute. discriminate.
  - exists m'. split; [exact Hrun |]. apply Hrest.
Defined.

(** X2.  [enemy_attack] by a present enemy with a non-negative attack value
    returns after one random word: the roll lies between half the enemy's
    attack and its attack, the player loses the roll less half the defense
    but at least 1, and nothing else of the game changes: the object is the
    one it started from with that health, so the other fields of the
    player, the enemy, the combat flag, the log, the world data, the
    location and the turn counter are as before. *)
Theorem enemy_attack_hurts_player rand m e :
  current_enemy (self m) = Some e ->
  0 <= e_attack e ->
  exists m' base,
    enemy_attack rand m = Val tt m' /\
    e_attack e / 2 <= base <= e_attack e /\
    let damage := Z.max 1 (base - defense (player (self m)) / 2) in
    1 <= damage /\
    self m'
    = set_player (set_health (health (player (self m)) - damage)
                    (player (self m))) (self m) /\
    player (self m')
    = set_health (health (player (self m)) - damage) (player (self m)) /\
    current_enemy (self m') = Some e /\
    in_combat (self m') = in_combat (self m) /\
    knowledge_base (self m') = knowledge_base (self m) /\
    world_data (self m') = world_data (self m) /\
    current_location (self m') = current_location (self m) /\
    turn_count (self m') = turn_count (self m) /\
    rand_pos m' = S (rand_pos m).
Proof.
  intros He Hatt. pose proof (half_below _ Hatt) as Hle.
  destruct (enemy_attack rand m) as [[] m' | ex mx] eqn:H;
    unfold enemy_attack, randint in H; settle H; try empty_range.
  landed H m'. eexists.
  exists (e_attack e / 2
          + Z.of_N (rand (rand_pos m)) mod (e_attack e - e_attack e / 2 + 1)).
  split; [reflexivity |].
  split; [apply roll_in_range; exact Hle |].
  exec. cbv zeta. split; [lia |].
  repeat split; auto.
Qed.

Lemma enemy_attack_hurts_player_witness :
  exists m',
    enemy_attack (draws []) (boot wolf_fight) = Val tt m' /\
    current_enemy (self m') = Some wolf.
Proof.
  destruct (enemy_attack_hurts_player (draws []) (boot wolf_fight) wolf eq_refl)
    as (m' & base & Hrun & _ & Hrest).
  - vm_compute. discriminate.
  - exists m'. split; [exact Hrun |]. apply Hrest.
Defined.

(** X3.  [player_defend] against a present enemy with a non-negative attack
    value returns with the defense it started from: health is the recovered
    health (a twentieth of [max_health], capped) less one hit of at least 1,
    rolled between a third and a half of the enemy's attack against one and
    a half times the defense; attack, inventory and the enemy are as
    before. *)
Theorem player_defend_restores_defense rand m e :
  current_enemy (self m) = Some e ->
  0 <= e_attack e ->
  exists m' base,
    player_defend rand m = Val tt m' /\
    e_attack e / 3 <= base <= e_attack e / 2 /\
    let p := player (self m) in
    let hit := Z.max 1 (base - (defense p + defense p / 2) / 2) in
    1 <= hit /\
    player (self m')
    = set_health (Z.min (max_health p) (health p + max_health p / 20) - hit) p /\
    defense (player (self m')) = defense p /\
    current_enemy (self m') = Some e /\
    in_combat (self m') = in_combat (self m).
Proof.
  intros He Hatt. pose proof (third_below_half _ Hatt) as Hle.
  destruct (player_defend rand m) as [[] m' | ex mx] eqn:H;
    unfold player_defend, randint in H; settle H; try empty_range.
  landed H m'. eexists.
  exists (e_attack e / 3
          + Z.of_N (rand (rand_pos m)) mod (e_attack e / 2 - e_attack e / 3 + 1)).
  split; [reflexivity |].
  split; [apply roll_in_range; exact Hle |].
  exec. cbv zeta. split; [lia |].
  assert (Hd : defense (player (self m)) + defense (player (self m)) / 2
               - defense (player (self m)) / 2 = defense (player (self m)))
    by lia.
  split; [| split; [exact Hd | auto]].
  unfold set_defense, set_health. cbn [p_name health max_health attack defense
                                       inventory skills].
  rewrite Hd. reflexivity.
Qed.

Lemma player_defend_restores_defense_witness :
  exists m',
    player_defend (draws []) (boot wolf_fight) = Val tt m' /\
    defense (player (self m')) = 5.
Proof.
  destruct (player_defend_restores_defense (draws []) (boot wolf_fight) wolf
              eq_refl)
    as (m' & base & Hrun & _ & Hrest).
  - vm_compute. discriminate.
  - exists m'. split; [exact Hrun |]. apply Hrest.
Defined.

(** X4.  A flee attempt whose draw fails, against a present enemy with a
    non-negative attack value, returns with combat still on and the enemy
    as it was: the player loses the roll (between half the enemy's attack
    and its attack) less a third of the defense, but at least 2. *)
Theorem failed_flee_costs_at_least_two rand m e :
  current_enemy (self m) = Some e ->
  0 <= e_attack e ->
  Qltb (unit_float (rand (rand_pos m))) (flee_chance (self m)) = false ->
  exists m' base,
    attempt_flee rand m = Val tt m' /\
    e_attack e / 2 <= base <= e_attack e /\
    let damage := Z.max 2 (base - defense (player (self m)) / 3) in
    2 <= damage /\
    player (self m')
    = set_health (health (player (self m)) - damage) (player (self m)) /\
    current_enemy (self m') = Some e /\
    in_combat (self m') = in_combat (self m) /\
    knowledge_base (self m') = knowledge_base (self m).
Proof.
  intros He Hatt Hu. pose proof (half_below _ Hatt) as Hle.
  destruct (attempt_flee rand m) as [[] m' | ex mx] eqn:H;
    unfold attempt_flee, randint in H; settle H; try discriminate Hu;
    try empty_range.
  landed H m'. eexists.
  exists (e_attack e / 2
          + Z.of_N (rand (S (rand_pos m))) mod (e_attack e - e_attack e / 2 + 1)).
  split; [reflexivity |].
  split; [apply roll_in_range; exact Hle |].
  exec. cbv zeta. split; [lia |]. auto.
Qed.

Lemma failed_flee_costs_at_least_two_witness :
  exists m',
    attempt_flee (draws [9007199254740991%N]) (boot wolf_fight) = Val tt m' /\
    in_combat (self m') = true.
Proof.
  destruct (failed_flee_costs_at_least_two (draws [9007199254740991%N])
              (boot wolf_fight) wolf eq_refl)
    as (m' & base & Hrun & _ & Hrest).
  - vm_compute. discriminate.
  - vm_compute. reflexivity.
  - exists m'. split; [exact Hrun |].
    cbv zeta in Hrest. destruct Hrest as (_ & _ & _ & Hin & _).
    rewrite Hin. reflexivity.
Defined.

Lemma unit_float_below_one k : (unit_float k < 1)%Q.
Proof.
  unfold unit_float, Qlt. cbn [Qnum Qden].
  pose proof (N.mod_upper_bound k 9007199254740992 ltac:(discriminate)).
  lia.
Qed.

(** X5.  From turn 40 on the chance to flee is at least 1, every draw is
    below it, and so no flee attempt returns: whatever the state and the
    draw, [attempt_flee] raises. *)
Theorem flee_never_returns_from_turn_40 rand m :
  40 <= turn_count (self m) ->
  returned (attempt_flee rand m) = false.
Proof.
  intros Hturn.
  assert (Hu : Qltb (unit_float (rand (rand_pos m))) (flee_chance (self m)) = true).
  { unfold Qltb. apply negb_true_iff.
    destruct (Qle_bool (flee_chance (self m)) (unit_float (rand (rand_pos m))))
      eqn:Hle; [| reflexivity].
    apply Qle_bool_iff in Hle.
    pose proof (unit_float_below_one (rand (rand_pos m))) as Hlt.
    assert (Hone : (1 <= flee_chance (self m))%Q).
    { unfold flee_chance, Qle, Qplus. cbn [Qnum Qden]. lia. }
    exfalso. apply (Qlt_irrefl 1).
    eapply Qle_lt_trans; [exact Hone |].
    eapply Qle_lt_trans; [exact Hle | exact Hlt]. }
  unfold attempt_flee. exec. rewrite Hu.
  destruct (current_enemy (self m)) as [e |] eqn:He; exec.
  - rewrite He. exec. reflexivity.
  - rewrite He. exec. reflexivity.
Qed.

Lemma flee_never_returns_from_turn_40_witness :
  returned (attempt_flee (draws [9007199254740991%N])
              (boot (set_turn_count 40 wolf_fight))) = false.
Proof.
  apply flee_never_returns_from_turn_40. vm_compute. discriminate.
Defined.

(** * Further properties of encounters *)

(** Takes the next insertion into the log in the goal. *)
Ltac log_step :=
  match goal with
  | |- context [add_to_knowledge_base ?ev ?m1] =>
      let kb := fresh "kb" in
      let dropped := fresh "dropped" in
      let older := fresh "older" in
      let Hrun := fresh "Hrun" in
      let Happ := fresh "Happ" in
      let Hlast := fresh "Hlast" in
      let Hcap := fresh "Hcap" in
      destruct (add_to_knowledge_base_lands ev m1)
        as (kb & dropped & older & Hrun & Happ & Hlast & Hcap);
      rewrite Hrun; clear Hrun;
      unfold stamped in Hlast;
      cbn [self set_self turn_count set_player set_in_combat set_current_enemy
           set_world_data set_knowledge_base set_current_location] in Hlast;
      fold (stamped (self m1)) in Hlast
  end.

(** X6.  Starting combat at a turn counter that is not negative returns
    with the encounter open: the enemy is the first registry entry whose
    name matches without regard to case or, without one, a new enemy of a
    difficulty between 1 and min(10, turn_count // 5 + 1) with health 20
    times, attack 5 plus twice and defense 2 plus that difficulty; the log
    ends with the stamped entry for it; the player and the world data are
    as before. *)
Theorem start_combat_opens_encounter rand name m :
  0 <= turn_count (self m) ->
  exists m' enemy older,
    start_combat rand name m = Val tt m' /\
    in_combat (self m') = true /\
    current_enemy (self m') = Some enemy /\
    match find_by_name e_name (enemies (world_data (self m))) name with
    | Some e => enemy = e
    | None =>
        exists d,
          1 <= d <= Z.min 10 (turn_count (self m) / 5 + 1) /\
          enemy = mkEnemy name d (20 * d) (5 + d * 2) (2 + d)
                          ("A mysterious " ++ name ++ ".")
    end /\
    knowledge_base (self m')
    = (older ++ [stamped (self m) ("Encountered and fought " ++ e_name enemy)])%list /\
    player (self m') = player (self m) /\
    world_data (self m') = world_data (self m).
Proof.
  intros Hturn. unfold start_combat. exec.
  destruct (find_by_name e_name (enemies (world_data (self m))) name)
    as [e |] eqn:Hfind.
  - exec. log_step. exec.
    eexists. exists e, older. split; [reflexivity |]. exec.
    repeat split; try reflexivity. exact Hlast.
  - unfold randint.
    assert (Hle : 1 <= Z.min 10 (turn_count (self m) / 5 + 1))
      by (Z.div_mod_to_equations; lia).
    pose proof Hle as Hb. apply Z.leb_le in Hb. rewrite Hb. exec.
    log_step. exec.
    eexists. eexists. exists older. split; [reflexivity |]. exec.
    split; [reflexivity |]. split; [reflexivity |].
    split; [| split; [exact Hlast | split; reflexivity]].
    eexists. split; [| reflexivity].
    apply roll_in_range. exact Hle.
Qed.

Lemma start_combat_opens_encounter_witness :
  exists m',
    start_combat (draws [2%N]) "Shade" (boot shade_game) = Val tt m' /\
    in_combat (self m') = true.
Proof.
  destruct (start_combat_opens_encounter (draws [2%N]) "Shade" (boot shade_game))
    as (m' & enemy & older & Hrun & Hin & _).
  - vm_compute. discriminate.
  - exists m'. split; assumption.
Defined.

Lemma reward_draw (k : N) :
  Qltb (unit_float k) float_0_6
  = (k mod 9007199254740992 <? 5404319552844595)%N.
Proof.
  unfold Qltb, Qle_bool, unit_float, float_0_6. cbn [Qnum Qden].
  destruct (N.ltb_spec (k mod 9007199254740992) 5404319552844595) as [H | H].
  - apply negb_true_iff. apply Z.leb_gt. lia.
  - apply negb_false_iff. apply Z.leb_le. lia.
Qed.

(** X7.  Resolving a victory over a present enemy returns with the
    encounter closed: the player has recovered a tenth of [max_health], up
    to [max_health]; a draw below the float 0.6, that is a draw k * 2^-53
    with k below 5404319552844595, has put a Health Potion at the end of
    the inventory and any other draw has left the inventory alone; the log
    ends with the stamped entry of the defeat of that enemy. *)
Theorem victory_is_resolved rand stdin m e :
  current_enemy (self m) = Some e ->
  exists m' older,
    resolve_combat rand stdin true m = Val tt m' /\
    in_combat (self m') = false /\
    current_enemy (self m') = None /\
    let p := player (self m) in
    health (player (self m'))
    = Z.min (max_health p) (health p + max_health p / 10) /\
    inventory (player (self m'))
    = (if (rand (rand_pos m) mod 2 ^ 53 <? 5404319552844595)%N
       then inventory p
            ++ [mkItem "Health Potion" "consumable" "Restores 50 health"
                  "A small vial containing a red liquid that heals wounds."]
       else inventory p)%list /\
    max_health (player (self m')) = max_health p /\
    knowledge_base (self m')
    = (older ++ [stamped (self m) ("Defeated " ++ e_name e ++ " in combat")])%list.
Proof.
  intros He. unfold resolve_combat, generate_combat_reward.
  exec. rewrite He. exec.
  change (2 ^ 53)%N with 9007199254740992%N.
  rewrite <- reward_draw.
  destruct (Qltb (unit_float (rand (rand_pos m))) float_0_6);
    exec; rewrite He; exec; log_step; exec;
    eexists; exists older; (split; [reflexivity |]); exec;
    repeat split; try reflexivity; exact Hlast.
Qed.

Lemma victory_is_resolved_witness :
  exists m',
    resolve_combat (draws []) (typed []) true (boot wolf_fight) = Val tt m' /\
    in_combat (self m') = false.
Proof.
  destruct (victory_is_resolved (draws []) (typed []) (boot wolf_fight) wolf
              eq_refl)
    as (m' & older & Hrun & Hin & _).
  exists m'. split; assumption.
Defined.

Lemma remove_first_length x l :
  In x l -> S (List.length (remove_first x l)) = List.length l.
Proof.
  induction l as [| y l IH]; intros Hin; [destruct Hin |].
  cbn [remove_first]. destruct (item_eq_dec x y) as [-> | Hne]; [reflexivity |].
  cbn [List.length]. f_equal. apply IH.
  destruct Hin as [-> | Hin]; [congruence | exact Hin].
Qed.

Lemma choice_index_in_range (k : N) (len : nat) :
  len <> O -> (N.to_nat (k mod N.of_nat len) < len)%nat.
Proof.
  intros Hlen.
  pose proof (N.mod_upper_bound k (N.of_nat len) ltac:(lia)). lia.
Qed.

(** X8.  Resolving a defeat against a present enemy returns with the
    encounter closed and the player revived at a quarter of [max_health];
    attack, defense and [max_health] stay; the inventory is as it was or
    has lost exactly one of its items; the log ends with the stamped entry
    of the revival. *)
Theorem defeat_is_resolved rand stdin m e :
  current_enemy (self m) = Some e ->
  exists m' older,
    resolve_combat rand stdin false m = Val tt m' /\
    in_combat (self m') = false /\
    current_enemy (self m') = None /\
    let p := player (self m) in
    health (player (self m')) = max_health p / 4 /\
    max_health (player (self m')) = max_health p /\
    attack (player (self m')) = attack p /\
    defense (player (self m')) = defense p /\
    (inventory (player (self m')) = inventory p \/
     exists lost,
       In lost (inventory p) /\
       inventory (player (self m')) = remove_first lost (inventory p) /\
       S (List.length (inventory (player (self m')))) = List.length (inventory p)) /\
    knowledge_base (self m')
    = (older ++ [stamped (self m)
                   ("Was defeated by " ++ e_name e
                    ++ " but mysteriously revived")])%list.
Proof.
  intros He. unfold resolve_combat, choice. exec.
  destruct (inventory (player (self m))) as [| x inv] eqn:Hinv.
  - exec. rewrite He. exec. log_step. exec.
    eexists. exists older. split; [reflexivity |]. exec.
    repeat split; try reflexivity; [left; exact Hinv | exact Hlast].
  - exec.
    destruct (Qltb (unit_float (rand (rand_pos m))) (5 # 10));
      exec; rewrite He; exec; log_step; exec;
      eexists; exists older; (split; [reflexivity |]); exec;
      repeat split; try reflexivity; try exact Hlast.
    + right. rewrite Hinv.
      set (lost := nth _ (x :: inv) x).
      assert (Hin : In lost (x :: inv)).
      { apply nth_In. apply choice_index_in_range. discriminate. }
      exists lost. split; [exact Hin |]. split; [reflexivity |].
      apply remove_first_length. exact Hin.
    + left. exact Hinv.
Qed.

Lemma defeat_is_resolved_witness :
  exists m',
    resolve_combat (draws []) (typed []) false (boot wolf_fight) = Val tt m' /\
    health (player (self m')) = 25.
Proof.
  destruct (defeat_is_resolved (draws []) (typed []) (boot wolf_fight) wolf
              eq_refl)
    as (m' & older & Hrun & _ & _ & Hh & _).
  exists m'. split; [exact Hrun |]. rewrite Hh. reflexivity.
Defined.

(** * Further properties of a round of combat *)

Ltac leb_facts :=
  repeat match goal with
         | Hx : (_ <=? _) = true |- _ => apply Z.leb_le in Hx
         | Hx : (_ <=? _) = false |- _ => apply Z.leb_gt in Hx
         end.

(** X9.  An input that is none of the combat actions is rejected without a
    trace on the game: the round returns with the object as it was, no
    random word used, one line read and the rejection printed last. *)
Theorem invalid_action_changes_nothing rand stdin m e :
  current_enemy (self m) = Some e ->
  let action := lower (stdin (stdin_pos m)) in
  in_list action ["attack"; "a"] = false ->
  startswith action "use " = false ->
  in_list action ["defend"; "d"] = false ->
  in_list action ["flee"; "f"; "run"] = false ->
  exists m',
    combat_turn rand stdin m = Val tt m' /\
    self m' = self m /\
    rand_pos m' = rand_pos m /\
    stdin_pos m' = S (stdin_pos m) /\
    last (stdout m') "" = Colors.RED ++ "Invalid combat action. Try again.".
Proof.
  intros He action Ha Hu Hd Hf. subst action.
  unfold combat_turn. exec. rewrite He. exec. rewrite Ha, Hu, Hd, Hf. exec.
  eexists. split; [reflexivity |]. exec.
  repeat split. apply last_last.
Qed.

Lemma invalid_action_changes_nothing_witness :
  exists m',
    combat_turn (draws []) (typed ["dance"]) (boot wolf_fight) = Val tt m' /\
    self m' = wolf_fight.
Proof.
  destruct (invalid_action_changes_nothing (draws []) (typed ["dance"])
              (boot wolf_fight) wolf eq_refl eq_refl eq_refl eq_refl eq_refl)
    as (m' & Hrun & Hself & _).
  exists m'. split; assumption.
Defined.

(** X10.  A blow that brings the enemy to zero or below ends the round
    there: with the roll and the critical draw such that the enemy's health
    less the damage and the bonus is not positive, the round of an attack
    returns with the encounter closed, the enemy has not struck, and the
    player has recovered a tenth of [max_health], up to [max_health]. *)
Theorem killing_blow_ends_combat rand stdin m e :
  current_enemy (self m) = Some e ->
  in_list (lower (stdin (stdin_pos m))) ["attack"; "a"] = true ->
  let p := player (self m) in
  0 <= attack p ->
  let damage :=
    Z.max 1 (roll (rand (rand_pos m)) (attack p / 2) (attack p)
             - e_defense e / 2) in
  let crit := if Qltb (unit_float (rand (S (rand_pos m)))) (25 # 100)
              then damage / 2 else 0 in
  e_health e - damage - crit <= 0 ->
  exists m',
    combat_turn rand stdin m = Val tt m' /\
    in_combat (self m') = false /\
    current_enemy (self m') = None /\
    health (player (self m'))
    = Z.min (max_health p) (health p + max_health p / 10) /\
    rand_pos m' = S (S (S (rand_pos m))).
Proof.
  intros He Ha p Hatt damage crit Hdead. subst p damage crit. unfold roll in Hdead.
  pose proof (half_below _ Hatt) as Hle.
  destruct (combat_turn rand stdin m) as [[] m' | ex mx] eqn:H;
    unfold combat_turn, player_attack, enemy_attack, resolve_combat,
      generate_combat_reward, choice, randint in H;
    exec_in H; rewrite He in H; exec_in H; rewrite Ha in H;
    settle H; try empty_range; leb_facts; try lia.
  all: landed H m'; eexists; (split; [reflexivity |]); exec;
    repeat split; reflexivity.
Qed.

Lemma killing_blow_ends_combat_witness :
  exists m',
    combat_turn (draws []) (typed ["attack"])
                (boot (set_current_enemy (Some (set_e_health 6 wolf)) wolf_fight))
    = Val tt m' /\
    in_combat (self m') = false.
Proof.
  destruct (killing_blow_ends_combat (draws []) (typed ["attack"])
              (boot (set_current_enemy (Some (set_e_health 6 wolf)) wolf_fight))
              (set_e_health 6 wolf) eq_refl eq_refl)
    as (m' & Hrun & Hin & _).
  - vm_compute. discriminate.
  - vm_compute. discriminate.
  - exists m'. split; assumption.
Defined.

(** X11.  A use of an item that is not in the inventory is rejected, but in
    combat it still costs the turn: against a live enemy with a
    non-negative attack value the round returns after an ordinary enemy
    attack; if the player survives it, the hit is the only change of the
    object, and otherwise the player is revived and the encounter closed. *)
Theorem rejected_item_use_costs_the_turn rand stdin m e :
  current_enemy (self m) = Some e ->
  0 < e_health e ->
  0 <= e_attack e ->
  let line := stdin (stdin_pos m) in
  let p := player (self m) in
  in_list (lower line) ["attack"; "a"] = false ->
  startswith (lower line) "use " = true ->
  find_indexed (inventory p) (strip (slice_from 4 line)) = None ->
  let damage :=
    Z.max 1 (roll (rand (rand_pos m)) (e_attack e / 2) (e_attack e)
             - defense p / 2) in
  exists m',
    combat_turn rand stdin m = Val tt m' /\
    1 <= damage /\
    (0 < health p - damage ->
     self m' = set_player (set_health (health p - damage) p) (self m)) /\
    (health p - damage <= 0 ->
     in_combat (self m') = false /\
     health (player (self m')) = max_health p / 4).
Proof.
  intros He Halive Hatt line p Ha Hu Hfind damage.
  subst line p damage. unfold roll.
  pose proof (half_below _ Hatt) as Hle.
  destruct (combat_turn rand stdin m) as [[] m' | ex mx] eqn:H;
    unfold combat_turn, use_item, enemy_attack, resolve_combat, choice,
      randint in H;
    exec_in H; rewrite He in H; exec_in H; rewrite Ha, Hu in H;
    exec_in H; rewrite Hfind in H;
    settle H; try empty_range; leb_facts; try lia.
  all: landed H m'; eexists; (split; [reflexivity |]); exec;
    (split; [lia |]);
    (split; [intros Hpos; try lia; try reflexivity
            | intros Hneg; try lia; split; reflexivity]).
Qed.

Lemma rejected_item_use_costs_the_turn_witness :
  exists m',
    combat_turn (draws []) (typed ["use rope"]) (boot wolf_fight) = Val tt m' /\
    self m' = set_player (set_health 96 (player wolf_fight)) wolf_fight.
Proof.
  destruct (rejected_item_use_costs_the_turn (draws []) (typed ["use rope"])
              (boot wolf_fight) wolf eq_refl)
    as (m' & Hrun & _ & Hlive & _); try reflexivity.
  - vm_compute. discriminate.
  - exists m'. split; [exact Hrun |]. apply Hlive. reflexivity.
Defined.

(** * Invariants of the loop *)

Lemma NoDup_snoc {A} (l : list A) (x : A) :
  NoDup l -> ~ In x l -> NoDup (l ++ [x]).
Proof.
  induction l as [| y l IH]; intros Hnd Hnin; cbn.
  - constructor; [intros [] | constructor].
  - inversion Hnd as [| y' l' Hy Hl]; subst. constructor.
    + rewrite in_app_iff. intros [Hin | [-> | []]]; [auto |].
      apply Hnin. now left.
    + apply IH; [exact Hl |]. intros Hin. apply Hnin. now right.
Qed.

Lemma find_by_name_none_keys l n :
  find_by_name i_name l n = None -> ~ In (lower n) (item_keys l).
Proof.
  unfold find_by_name, item_keys. intros Hnone Hin.
  apply in_map_iff in Hin. destruct Hin as (x & Hx & Hin).
  pose proof (find_none _ _ Hnone x Hin) as Hne. cbn in Hne.
  rewrite Hx, String.eqb_refl in Hne. discriminate.
Qed.

#[export] Instance registry_grows_preorder : Preorder registry_grows.
Proof.
  split; unfold registry_grows.
  - intros g. repeat split; try reflexivity; [| auto].
    exists []. now rewrite app_nil_r.
  - intros a b c (E1 & L1 & (x1 & I1) & N1) (E2 & L2 & (x2 & I2) & N2).
    repeat split; try congruence; [| auto].
    exists (x1 ++ x2)%list. rewrite I2, I1, app_assoc. reflexivity.
Qed.

Lemma registry_grows_same g g' :
  world_data g' = world_data g -> registry_grows g g'.
Proof.
  intros H. unfold registry_grows. rewrite H.
  repeat split; [| auto]. exists []. now rewrite app_nil_r.
Qed.

Lemma find_item_registry_grows name : keeps registry_grows (find_item name).
Proof.
  intros m. unfold find_item. exec.
  destruct (find_by_name i_name (items (world_data (self m))) name)
    as [i |] eqn:Hfind; exec; log_step; exec; cbn [final self].
  - apply registry_grows_same. reflexivity.
  - unfold registry_grows. exec. repeat split.
    + eexists. reflexivity.
    + intros Hnd. unfold item_keys. rewrite map_app. cbn [map i_name].
      apply NoDup_snoc; [exact Hnd |].
      now apply find_by_name_none_keys.
Qed.

Lemma change_location_same_world rand llm name :
  keeps (same world_data) (change_location rand llm name).
Proof.
  intros m. unfold same, change_location. exec.
  destruct (find_by_name l_name (locations (world_data (self m))) name)
    eqn:Hfind; exec.
  - log_step. exec. reflexivity.
  - unfold choice. exec. rewrite call_with_max_tokens. exec. reflexivity.
Qed.

Lemma change_location_registry_grows rand llm name :
  keeps registry_grows (change_location rand llm name).
Proof.
  intros m. apply registry_grows_same.
  apply (change_location_same_world rand llm name m).
Qed.

Ltac registry_leaf :=
  idtac;
  lazymatch goal with
  | |- keeps _ (find_item _) => apply find_item_registry_grows
  | |- keeps _ (change_location _ _ _) => apply change_location_registry_grows
  | |- keeps _ (add_to_knowledge_base _) =>
      apply keeps_add_to_knowledge_base; intros;
      apply registry_grows_same; reflexivity
  | |- registry_grows _ _ => apply registry_grows_same; reflexivity
  end.

Lemma game_loop_step_registry_grows rand llm stdin ap sp :
  keeps registry_grows (game_loop_step rand llm stdin ap sp).
Proof.
  unfold game_loop_step, exploration_turn, quit_game, show_screen, combat_turn,
    process_player_action, process_response_tags, use_item, resolve_combat,
    generate_combat_reward, attempt_flee, player_defend, enemy_attack,
    player_attack, start_combat.
  keeps_walk registry_leaf.
Qed.

(** X12.  No round of the loop, returned or raised, takes anything out of
    the registries: the enemies and the locations stay as they are (combat
    works on a copy of the enemy), items are only added at the end, and
    item names that are unique without regard to case stay unique.  So it
    is in every state the loop reaches. *)
Theorem registries_only_grow rand llm stdin ap sp m0 m :
  reachable rand llm stdin ap sp m0 m ->
  registry_grows (self m0) (self m) /\
  registry_grows (self m) (self (final (game_loop_step rand llm stdin ap sp m))).
Proof.
  intros Hreach. split; [| apply game_loop_step_registry_grows].
  induction Hreach as [| m1 m2 _ IH Hstep]; [apply pre_refl |].
  eapply pre_trans; [exact IH |].
  pose proof (game_loop_step_registry_grows rand llm stdin ap sp m1) as K.
  rewrite Hstep in K. exact K.
Qed.

Lemma registries_only_grow_witness :
  let m0 := boot demo_game in
  let m1 := final (game_loop_step (draws []) (model_says "A blade. [ITEM] Knife")
                     (typed ["dig"]) plain_prompt "" m0) in
  registry_grows (self m0) (self m1) /\ item_keys (items (world_data (self m1))) = ["knife"].
Proof.
  cbv zeta. split; [| vm_compute; reflexivity].
  apply (registries_only_grow (draws []) (model_says "A blade. [ITEM] Knife")
           (typed ["dig"]) plain_prompt "" (boot demo_game) (boot demo_game)).
  apply reach_start.
Defined.

#[export] Instance log_bounded_preorder : Preorder log_bounded.
Proof. split; unfold log_bounded; auto. Qed.

Lemma add_to_knowledge_base_log_bounded event :
  keeps log_bounded (add_to_knowledge_base event).
Proof.
  intros m _.
  destruct (add_to_knowledge_base_spec event m)
    as (m' & dropped & older & Hrun & _ & _ & _ & _ & Hcap).
  rewrite Hrun. exact Hcap.
Qed.

Ltac bounded_leaf :=
  idtac;
  lazymatch goal with
  | |- keeps _ (add_to_knowledge_base _) => apply add_to_knowledge_base_log_bounded
  | |- log_bounded _ _ => unfold log_bounded; intros; assumption
  end.

Lemma game_loop_step_log_bounded rand llm stdin ap sp :
  keeps log_bounded (game_loop_step rand llm stdin ap sp).
Proof. unfold_ops. keeps_walk bounded_leaf. Qed.

(** X13.  The bound of the log holds over the whole run: from a log of at
    most fifty entries, such as the empty log of a new game, every state
    the loop reaches, and the state any further round stops in, returned or
    raised, has a log of at most fifty entries. *)
Theorem log_stays_bounded rand llm stdin ap sp m0 m :
  (List.length (knowledge_base (self m0)) <= 50)%nat ->
  reachable rand llm stdin ap sp m0 m ->
  (List.length (knowledge_base (self m)) <= 50)%nat /\
  (List.length (knowledge_base
                  (self (final (game_loop_step rand llm stdin ap sp m)))) <= 50)%nat.
Proof.
  intros H0 Hreach.
  assert (Hm : (List.length (knowledge_base (self m)) <= 50)%nat).
  { induction Hreach as [| m1 m2 _ IH Hstep]; [exact H0 |].
    pose proof (game_loop_step_log_bounded rand llm stdin ap sp m1 IH) as K.
    rewrite Hstep in K. exact K. }
  split; [exact Hm |].
  exact (game_loop_step_log_bounded rand llm stdin ap sp m Hm).
Qed.

Lemma log_stays_bounded_witness :
  (List.length
     (knowledge_base
        (self (final (game_loop_step (draws []) (model_says "Dust. [EVENT] Dust")
                        (typed ["look"]) plain_prompt "" (boot demo_game)))))
   <= 50)%nat.
Proof.
  apply (log_stays_bounded (draws []) (model_says "Dust. [EVENT] Dust")
           (typed ["look"]) plain_prompt "" (boot demo_game) (boot demo_game)).
  - cbn. lia.
  - apply reach_start.
Defined.

(** *** The combat flag and the enemy *)

#[export] Instance in_step_kept_preorder : Preorder in_step_kept.
Proof. split; unfold in_step_kept; auto. Qed.

Lemma in_step_kept_same g g' :
  in_combat g' = in_combat g -> current_enemy g' = current_enemy g ->
  in_step_kept g g'.
Proof. unfold in_step_kept, in_step. intros -> ->. auto. Qed.

(** The state a run stopped in, whether it returned or raised, with the
    facts about the flag and the enemy it started from. *)
Ltac in_step_case H m' :=
  landed H m'; unfold in_step_kept, in_step; exec;
  intros [Hon Hoff];
  split; intros Hflag; try discriminate Hflag; try reflexivity;
  try (eexists; reflexivity);
  try (apply Hon in Hflag; destruct Hflag as [? Hflag]; congruence);
  try (apply Hoff in Hflag; congruence);
  try (destruct (in_combat _) eqn:Hc;
       [ eauto | specialize (Hoff eq_refl); congruence ]).

Lemma player_attack_in_step rand : keeps in_step_kept (player_attack rand).
Proof.
  intros m.
  destruct (player_attack rand m) as [[] m' | ex m'] eqn:H; cbn [final];
    unfold player_attack, randint in H; crunch H; try discriminate H;
    in_step_case H m'.
Qed.

Lemma attempt_flee_in_step rand : keeps in_step_kept (attempt_flee rand).
Proof.
  intros m.
  destruct (attempt_flee rand m) as [[] m' | ex m'] eqn:H; cbn [final];
    unfold attempt_flee, randint in H; crunch H; try discriminate H;
    in_step_case H m'.
Qed.

Lemma resolve_combat_in_step rand stdin won :
  keeps in_step_kept (resolve_combat rand stdin won).
Proof.
  intros m.
  destruct (resolve_combat rand stdin won m) as [[] m' | ex m'] eqn:H;
    cbn [final];
    unfold resolve_combat, generate_combat_reward, choice in H;
    destruct won; crunch H; try discriminate H;
    in_step_case H m'.
Qed.

Lemma start_combat_in_step rand name : keeps in_step_kept (start_combat rand name).
Proof.
  intros m.
  destruct (start_combat rand name m) as [[] m' | ex m'] eqn:H; cbn [final];
    unfold start_combat, randint in H; crunch H; try discriminate H;
    in_step_case H m'.
Qed.

Ltac in_step_leaf :=
  idtac;
  lazymatch goal with
  | |- keeps _ (player_attack _) => apply player_attack_in_step
  | |- keeps _ (attempt_flee _) => apply attempt_flee_in_step
  | |- keeps _ (resolve_combat _ _ _) => apply resolve_combat_in_step
  | |- keeps _ (start_combat _ _) => apply start_combat_in_step
  | |- keeps _ (add_to_knowledge_base _) =>
      apply keeps_add_to_knowledge_base; intros;
      apply in_step_kept_same; reflexivity
  | |- in_step_kept _ _ => apply in_step_kept_same; reflexivity
  end.

Lemma game_loop_step_in_step rand llm stdin ap sp :
  keeps in_step_kept (game_loop_step rand llm stdin ap sp).
Proof.
  unfold game_loop_step, exploration_turn, quit_game, show_screen, combat_turn,
    process_player_action, process_response_tags, change_location, use_item,
    find_item, player_defend, enemy_attack.
  keeps_walk in_step_leaf.
Qed.

(** X14.  The combat flag and the enemy agree throughout: from a new game,
    in every state the loop reaches and in the state any further round
    stops in, returned or raised, [in_combat] is set exactly when there is
    a current enemy.  So there is at most one encounter at a time and a
    round of combat always finds its enemy. *)
Theorem flag_and_enemy_agree rand llm stdin ap sp name w loc m0 m :
  self m0 = new_game name w loc ->
  reachable rand llm stdin ap sp m0 m ->
  in_step (self m) /\
  in_step (self (final (game_loop_step rand llm stdin ap sp m))).
Proof.
  intros Hnew Hreach.
  assert (Hm : in_step (self m)).
  { induction Hreach as [| m1 m2 _ IH Hstep].
    - rewrite Hnew. split; [discriminate | reflexivity].
    - pose proof (game_loop_step_in_step rand llm stdin ap sp m1 IH) as K.
      rewrite Hstep in K. exact K. }
  split; [exact Hm |].
  exact (game_loop_step_in_step rand llm stdin ap sp m Hm).
Qed.

Lemma flag_and_enemy_agree_witness :
  in_step
    (self (final (game_loop_step (draws []) (model_says "Growl. [COMBAT] Wolf")
                    (typed ["look"]) plain_prompt "" (boot demo_game)))).
Proof.
  apply (flag_and_enemy_agree (draws []) (model_says "Growl. [COMBAT] Wolf")
           (typed ["look"]) plain_prompt "" "Adventurer" demo_world
           "Starting Village" (boot demo_game) (boot demo_game)).
  - reflexivity.
  - apply reach_start.
Defined.

(** * Further properties of items *)

Lemma find_by_name_key {A} (name_of : A -> string) l n x :
  find_by_name name_of l n = Some x -> lower (name_of x) = lower n.
Proof.
  unfold find_by_name. intros H. apply find_some in H.
  destruct H as [_ H]. now apply String.eqb_eq in H.
Qed.

Lemma find_by_name_fold_case {A} (name_of : A -> string) l n n' :
  lower n' = lower n -> find_by_name name_of l n' = find_by_name name_of l n.
Proof. unfold find_by_name. now intros ->. Qed.

(** X15.  Finding an item always returns and puts one item at the end of
    the inventory: the first registry entry of that name, or a new "misc"
    item that is registered on the way.  Either way the name of the item
    equals the given name up to case, a lookup of the name in any case
    then finds that very item, and the log ends with the stamped entry of
    the find. *)
Theorem find_item_then_lookup name m :
  exists m' item older,
    find_item name m = Val tt m' /\
    inventory (player (self m')) = (inventory (player (self m)) ++ [item])%list /\
    lower (i_name item) = lower name /\
    (forall name', lower name' = lower name ->
       find_by_name i_name (items (world_data (self m'))) name' = Some item) /\
    (find_by_name i_name (items (world_data (self m))) name = None ->
     item = mkItem name "misc" "Unknown" ("A mysterious " ++ name ++ ".") /\
     items (world_data (self m')) = (items (world_data (self m)) ++ [item])%list) /\
    knowledge_base (self m') = (older ++ [stamped (self m) ("Found " ++ i_name item)])%list.
Proof.
  unfold find_item. exec.
  destruct (find_by_name i_name (items (world_data (self m))) name)
    as [i |] eqn:Hfind; exec; log_step; exec.
  - eexists. exists i, older. split; [reflexivity |]. exec.
    split; [reflexivity |].
    split; [exact (find_by_name_key _ _ _ _ Hfind) |].
    split; [| split; [discriminate | exact Hlast]].
    intros name' Hlow. now rewrite (find_by_name_fold_case _ _ _ _ Hlow).
  - eexists. eexists. exists older. split; [reflexivity |]. exec.
    split; [reflexivity |]. split; [reflexivity |].
    split; [| split; [split; reflexivity | exact Hlast]].
    intros name' Hlow. rewrite (find_by_name_fold_case _ _ _ _ Hlow).
    unfold find_by_name in *. rewrite find_append, Hfind. cbn [find i_name].
    now rewrite String.eqb_refl.
Qed.

Lemma find_indexed_in_range l n i x :
  find_indexed l n = Some (i, x) -> nth_error l i = Some x.
Proof.
  revert i. induction l as [| y l IH]; intros i H; [discriminate |].
  cbn [find_indexed] in H.
  destruct (String.eqb (lower (i_name y)) (lower n)).
  - injection H as <- <-. reflexivity.
  - destruct (find_indexed l n) as [[j z] |]; [| discriminate].
    injection H as <- <-. cbn. now apply IH.
Qed.

Lemma pop_at_length {A} (l : list A) i x :
  nth_error l i = Some x -> S (List.length (pop_at i l)) = List.length l.
Proof.
  revert i. induction l as [| y l IH]; intros [| i] H; try discriminate.
  - reflexivity.
  - cbn in *. f_equal. now apply IH.
Qed.

(** X16.  [use_item] changes nothing of the game when the name is not in
    the inventory or when the item found is of none of the three types
    (consumable, weapon, armor, compared without regard to case): it
    returns with the object as it was. *)
Theorem use_item_without_effect name m :
  match find_indexed (inventory (player (self m))) name with
  | None => True
  | Some (_, item) =>
      String.eqb (lower (i_type item)) "consumable" = false /\
      String.eqb (lower (i_type item)) "weapon" = false /\
      String.eqb (lower (i_type item)) "armor" = false
  end ->
  exists m', use_item name m = Val tt m' /\ self m' = self m.
Proof.
  intros H. unfold use_item. exec.
  destruct (find_indexed (inventory (player (self m))) name) as [[i item] |].
  - destruct H as (Hc & Hw & Ha). rewrite Hc, Hw, Ha. exec.
    eexists. split; reflexivity.
  - exec. eexists. split; reflexivity.
Qed.

Lemma use_item_without_effect_witness :
  exists m', use_item "rope" (boot packed_game) = Val tt m' /\ self m' = packed_game.
Proof.
  apply (use_item_without_effect "rope" (boot packed_game)).
  vm_compute. exact I.
Defined.

(** X17.  A consumable is used up whatever its effect says: the matched
    item, and only it, leaves the inventory, which gets shorter by one; and
    when the effect text mentions neither "heal" nor "health" nothing else
    of the player changes. *)
Theorem consumable_is_used_up name m idx item :
  find_indexed (inventory (player (self m))) name = Some (idx, item) ->
  lower (i_type item) = "consumable" ->
  exists m',
    use_item name m = Val tt m' /\
    let p := player (self m) in
    inventory (player (self m')) = pop_at idx (inventory p) /\
    S (List.length (inventory (player (self m')))) = List.length (inventory p) /\
    (contains "heal" (lower (i_effect item))
     || contains "health" (lower (i_effect item)) = false ->
     player (self m') = set_inventory (pop_at idx (inventory p)) p).
Proof.
  intros Hfound Htype.
  pose proof (pop_at_length _ _ _ (find_indexed_in_range _ _ _ _ Hfound)) as Hlen.
  unfold use_item. exec. rewrite Hfound, Htype.
  change (String.eqb "consumable" "consumable") with true. exec.
  destruct (contains "heal" (lower (i_effect item))
            || contains "health" (lower (i_effect item))); exec;
    eexists; (split; [reflexivity |]); exec;
    (split; [reflexivity |]); (split; [exact Hlen |]);
    intros Hno; [discriminate Hno | reflexivity].
Qed.

Lemma consumable_is_used_up_witness :
  exists m',
    use_item "elixir" (boot packed_game) = Val tt m' /\
    inventory (player (self m')) = [sabre; club; buckler].
Proof.
  destruct (consumable_is_used_up "elixir" (boot packed_game) 0%nat potion
              eq_refl eq_refl)
    as (m' & Hrun & Hinv & _).
  exists m'. split; [exact Hrun |]. rewrite Hinv. reflexivity.
Defined.

(** X18.  A weapon or a piece of armor stays in the inventory and its bonus
    adds up: using the same weapon twice returns both times and leaves the
    attack raised by twice the bonus, and likewise the defense for armor,
    with the inventory as it was. *)
Theorem equipment_bonus_compounds name m idx item :
  find_indexed (inventory (player (self m))) name = Some (idx, item) ->
  let p := player (self m) in
  let bonus := fun default => match search_plus_digits (i_effect item) with
                              | Some d => int_of_digits d
                              | None => default
                              end in
  (lower (i_type item) = "weapon" ->
   exists m1 m2,
     use_item name m = Val tt m1 /\ use_item name m1 = Val tt m2 /\
     player (self m2) = set_attack (attack p + bonus 5 + bonus 5) p) /\
  (lower (i_type item) = "armor" ->
   exists m1 m2,
     use_item name m = Val tt m1 /\ use_item name m1 = Val tt m2 /\
     player (self m2) = set_defense (defense p + bonus 3 + bonus 3) p).
Proof.
  intros Hfound p bonus. subst p bonus. split; intros Htype.
  - assert (Hone : forall m0,
               find_indexed (inventory (player (self m0))) name = Some (idx, item) ->
               use_item name m0
               = Val tt (mkMachine
                           (set_player
                              (set_attack
                                 (attack (player (self m0))
                                  + match search_plus_digits (i_effect item) with
                                    | Some d => int_of_digits d
                                    | None => 5
                                    end) (player (self m0))) (self m0))
                           (stdout (final (use_item name m0)))
                           (rand_pos m0) (llm_pos m0) (stdin_pos m0))).
    { intros m0 Hf. unfold use_item. exec. rewrite Hf, Htype.
      change (String.eqb "weapon" "consumable") with false.
      change (String.eqb "weapon" "weapon") with true. exec. reflexivity. }
    eexists. eexists. split; [apply Hone; exact Hfound |].
    split; [apply Hone; exact Hfound |]. reflexivity.
  - assert (Hone : forall m0,
               find_indexed (inventory (player (self m0))) name = Some (idx, item) ->
               use_item name m0
               = Val tt (mkMachine
                           (set_player
                              (set_defense
                                 (defense (player (self m0))
                                  + match search_plus_digits (i_effect item) with
                                    | Some d => int_of_digits d
                                    | None => 3
                                    end) (player (self m0))) (self m0))
                           (stdout (final (use_item name m0)))
                           (rand_pos m0) (llm_pos m0) (stdin_pos m0))).
    { intros m0 Hf. unfold use_item. exec. rewrite Hf, Htype.
      change (String.eqb "armor" "consumable") with false.
      change (String.eqb "armor" "weapon") with false.
      change (String.eqb "armor" "armor") with true. exec. reflexivity. }
    eexists. eexists. split; [apply Hone; exact Hfound |].
    split; [apply Hone; exact Hfound |]. reflexivity.
Qed.

Lemma equipment_bonus_compounds_witness :
  exists m1 m2,
    use_item "sabre" (boot packed_game) = Val tt m1 /\
    use_item "sabre" m1 = Val tt m2 /\
    attack (player (self m2)) = 24.
Proof.
  destruct (equipment_bonus_compounds "sabre" (boot packed_game) 1%nat sabre
              eq_refl)
    as [Hweapon _].
  destruct (Hweapon eq_refl) as (m1 & m2 & H1 & H2 & Hp).
  exists m1, m2. split; [exact H1 |]. split; [exact H2 |].
  rewrite Hp. reflexivity.
Defined.

(** * Further properties of the interpretation of a response *)

Lemma tag_free_each response :
  tag_free response = true ->
  contains "[COMBAT]" response = false /\
  contains "[ITEM]" response = false /\
  contains "[LOCATION]" response = false /\
  contains "[EVENT]" response = false.
Proof.
  unfold tag_free, tags. cbn [forallb]. intros H.
  repeat (apply andb_prop in H; destruct H as [?H H]).
  repeat match goal with
         | Hx : negb _ = true |- _ => apply negb_true_iff in Hx
         end.
  auto.
Qed.

(** X19.  A reply of the model without any of the four tags only tells the
    story: [process_player_action] returns with the turn counter raised by
    one and nothing else of the object changed, no random word used, and
    the last line printed is the reply, without its think blocks and
    stripped. *)
Theorem plain_reply_only_advances_turn rand llm ap sp action m t :
  (forall prompt, llm (llm_pos m) prompt = Reply (Some t)) ->
  tag_free (sub_think t) = true ->
  exists m',
    process_player_action rand llm ap sp action m = Val tt m' /\
    self m' = set_turn_count (turn_count (self m) + 1) (self m) /\
    rand_pos m' = rand_pos m /\
    last (stdout m') "" = Colors.GREEN ++ nl ++ strip (sub_think t).
Proof.
  intros Hllm Hfree.
  destruct (tag_free_each _ Hfree) as (Hc & Hi & Hl & He).
  unfold process_player_action, generate_ai_response, process_response_tags,
    remove_tags, remove_tag.
  exec. rewrite Hllm. exec. rewrite Hc, Hi, Hl, He. exec.
  eexists. split; [reflexivity |]. exec.
  split; [reflexivity |]. split; [reflexivity |].
  rewrite last_last. cbn [fold_left]. rewrite Hc, Hi, Hl, He. reflexivity.
Qed.

Lemma plain_reply_only_advances_turn_witness :
  exists m',
    process_player_action (draws []) (model_says "<think>hm</think> The road is quiet. ")
      plain_prompt "" "walk" (boot demo_game) = Val tt m' /\
    self m' = set_turn_count 1 demo_game /\
    last (stdout m') "" = Colors.GREEN ++ nl ++ "The road is quiet.".
Proof.
  destruct (plain_reply_only_advances_turn (draws [])
              (model_says "<think>hm</think> The road is quiet. ")
              plain_prompt "" "walk" (boot demo_game)
              "<think>hm</think> The road is quiet. ")
    as (m' & Hrun & Hself & _ & Hlast).
  - reflexivity.
  - vm_compute. reflexivity.
  - exists m'. split; [exact Hrun |]. split; [exact Hself |].
    rewrite Hlast. vm_compute. reflexivity.
Defined.

Lemma sub_think_go_without_marker fuel : forall s,
  contains "<think>" s = false -> sub_think_go fuel s = s.
Proof.
  induction fuel as [| f IH]; intros s H; [reflexivity |].
  destruct s as [| c r]; [reflexivity |].
  cbn [sub_think_go]. cbn [contains] in H.
  apply orb_false_iff in H. destruct H as [Hp Hr].
  rewrite Hp. now rewrite IH.
Qed.

(** X20.  [generate_ai_response] never raises and never touches the game:
    it returns after exactly one call of the model with the object, the
    random position and the input position as they were.  A reply without
    a think marker comes back unchanged, a missing reply text as the empty
    string, and a failure of the call as a text that starts with
    "Error communicating with AI model". *)
Theorem generate_ai_response_always_answers llm prompt system_prompt m :
  exists text m',
    generate_ai_response llm prompt system_prompt m = Val text m' /\
    self m' = self m /\
    llm_pos m' = S (llm_pos m) /\
    rand_pos m' = rand_pos m /\
    stdin_pos m' = stdin_pos m /\
    match llm (llm_pos m)
            ("<s>[INST] " ++ system_prompt
             ++ ". Lastly, please don't use cliches and AI-slop, try to stay original."
             ++ nl ++ nl ++ prompt ++ "[/INST] ") with
    | Reply (Some t) =>
        text = sub_think t /\
        (contains "<think>" t = false -> text = t)
    | Reply None => text = ""
    | ResponseError _ _ | OtherError _ =>
        startswith text "Error communicating with AI model" = true
    end.
Proof.
  unfold generate_ai_response. exec.
  destruct (llm (llm_pos m) _) as [[t |] | err code | msg]; exec;
    eexists; eexists; (split; [reflexivity |]); exec;
    repeat split; try reflexivity.
  intros Hno. now apply sub_think_go_without_marker.
Qed.

(** X21.  Travel to a location the registry knows, in whatever case it is
    spelled, returns: the current location becomes the name as given, the
    world data stay as they are, the model is not asked and no random word
    is used, and the log ends with the stamped entry of the journey. *)
Theorem known_location_is_entered rand llm name m loc :
  find_by_name l_name (locations (world_data (self m))) name = Some loc ->
  exists m' older,
    change_location rand llm name m = Val tt m' /\
    current_location (self m') = name /\
    world_data (self m') = world_data (self m) /\
    player (self m') = player (self m) /\
    llm_pos m' = llm_pos m /\
    rand_pos m' = rand_pos m /\
    knowledge_base (self m')
    = (older ++ [stamped (self m)
                   ("Traveled from " ++ current_location (self m) ++ " to " ++ name)])%list.
Proof.
  intros Hfind. unfold change_location. exec. rewrite Hfind. exec.
  log_step. exec.
  eexists. exists older. split; [reflexivity |]. exec.
  repeat split; try reflexivity. exact Hlast.
Qed.

Lemma known_location_is_entered_witness :
  exists m',
    change_location (draws []) (model_says "") "STARTING VILLAGE" (boot demo_game)
    = Val tt m' /\
    current_location (self m') = "STARTING VILLAGE".
Proof.
  destruct (known_location_is_entered (draws []) (model_says "")
              "STARTING VILLAGE" (boot demo_game) village eq_refl)
    as (m' & older & Hrun & Hloc & _).
  exists m'. split; assumption.
Defined.

(** * Properties of the setup *)

Lemma from_first_char_spec c s :
  match from_first_char c s with
  | Some t =>
      exists before r,
        s = (before ++ t)%string /\ t = String c r /\
        all_chars (fun d => negb (Ascii.eqb d c)) before = true
  | None => all_chars (fun d => negb (Ascii.eqb d c)) s = true
  end.
Proof.
  induction s as [| d r IH]; [reflexivity |].
  cbn [from_first_char]. destruct (Ascii.eqb d c) eqn:Hd.
  - apply Ascii.eqb_eq in Hd. subst d.
    exists EmptyString, r. repeat split.
  - destruct (from_first_char c r) as [t |].
    + destruct IH as (before & r' & E & Ht & Hb).
      exists (String d before), r'. cbn. rewrite Hd, Hb, <- E. auto.
    + cbn. now rewrite Hd, IH.
Qed.

Lemma up_to_closing_brace_spec s : forall depth object,
  up_to_closing_brace depth s = Some object ->
  exists rest,
    s = (object ++ rest)%string /\
    depth + brace_depth object = 0 /\
    ends_with_char "}" object = true.
Proof.
  induction s as [| c r IH]; intros depth object H; [discriminate |].
  cbn [up_to_closing_brace] in H.
  assert (Hrec : forall d k,
             (if Ascii.eqb c "{" then 1 else if Ascii.eqb c "}" then -1 else 0) = k ->
             option_map (String c) (up_to_closing_brace d r) = Some object ->
             d = depth + k ->
             exists rest,
               String c r = (object ++ rest)%string /\
               depth + brace_depth object = 0 /\
               ends_with_char "}" object = true).
  { intros d k Hk Hmap Hd.
    destruct (up_to_closing_brace d r) as [o |] eqn:Ho; [| discriminate].
    injection Hmap as <-.
    destruct (IH _ _ Ho) as (rest & E & Hbal & Hend).
    exists rest. split; [cbn; now rewrite <- E |].
    split; [cbn [brace_depth]; rewrite Hk; lia |].
    destruct o; [discriminate Hend | exact Hend]. }
  destruct (Ascii.eqb c "{") eqn:Hopen.
  - eapply Hrec; [reflexivity | exact H | lia].
  - destruct (Ascii.eqb c "}") eqn:Hclose.
    + destruct (depth - 1 =? 0) eqn:Hzero.
      * injection H as <-. apply Z.eqb_eq in Hzero.
        exists r. split; [reflexivity |].
        split; [cbn [brace_depth]; rewrite Hopen, Hclose; lia |].
        cbn. exact Hclose.
      * eapply Hrec; [reflexivity | exact H | lia].
    + eapply Hrec; [reflexivity | exact H | lia].
Qed.

Lemma append_empty_r (s : string) : (s ++ "")%string = s.
Proof. induction s as [| c s IH]; cbn; [reflexivity | now rewrite IH]. Qed.

Lemma startswith_own_head c r :
  startswith (String c r) (String c EmptyString) = true.
Proof.
  unfold startswith. cbn [String.prefix].
  destruct (ascii_dec c c); [now destruct r | congruence].
Qed.

(** While the loop of [create_world] is inside the braces the depth stays
    positive: entered with a positive depth, it has a positive depth after
    every character before the one it stops at. *)
Lemma up_to_closing_brace_first s : forall depth object,
  1 <= depth ->
  up_to_closing_brace depth s = Some object ->
  forall p q, object = (p ++ q)%string -> q <> EmptyString ->
  1 <= depth + brace_depth p.
Proof.
  induction s as [| c r IH]; intros depth object Hd H p q E Hq; [discriminate |].
  cbn [up_to_closing_brace] in H.
  assert (Hrec : forall d k,
             (if Ascii.eqb c "{" then 1 else if Ascii.eqb c "}" then -1 else 0) = k ->
             option_map (String c) (up_to_closing_brace d r) = Some object ->
             d = depth + k -> 1 <= d ->
             1 <= depth + brace_depth p).
  { intros d k Hk Hmap Hdk Hd1.
    destruct (up_to_closing_brace d r) as [o |] eqn:Ho; [| discriminate].
    injection Hmap as <-.
    destruct p as [| x p']; [cbn; lia |].
    cbn in E. injection E as <- E.
    pose proof (IH _ _ Hd1 Ho p' q E Hq) as Hp.
    cbn [brace_depth]. rewrite Hk. lia. }
  destruct (Ascii.eqb c "{") eqn:Hopen.
  - eapply Hrec; [reflexivity | exact H | lia | lia].
  - destruct (Ascii.eqb c "}") eqn:Hclose.
    + destruct (depth - 1 =? 0) eqn:Hzero.
      * injection H as <-.
        destruct p as [| x p']; [cbn; lia |].
        cbn in E. injection E as _ E.
        destruct p'; [cbn in E; congruence | discriminate E].
      * apply Z.eqb_neq in Hzero.
        eapply Hrec; [reflexivity | exact H | lia | lia].
    + eapply Hrec; [reflexivity | exact H | lia | lia].
Qed.

(** When the loop runs to the end of the text the depth has been positive
    after every character. *)
Lemma up_to_closing_brace_never s : forall depth,
  1 <= depth ->
  up_to_closing_brace depth s = None ->
  forall p q, s = (p ++ q)%string -> 1 <= depth + brace_depth p.
Proof.
  induction s as [| c r IH]; intros depth Hd H p q E.
  - destruct p; [cbn; lia | discriminate E].
  - cbn [up_to_closing_brace] in H.
    destruct p as [| x p']; [cbn; lia |].
    cbn in E. injection E as <- E.
    assert (Hrec : forall d k,
               (if Ascii.eqb c "{" then 1 else if Ascii.eqb c "}" then -1 else 0) = k ->
               option_map (String c) (up_to_closing_brace d r) = None ->
               d = depth + k -> 1 <= d ->
               1 <= depth + brace_depth (String c p')).
    { intros d k Hk Hmap Hdk Hd1.
      destruct (up_to_closing_brace d r) eqn:Ho; [discriminate |].
      pose proof (IH _ Hd1 Ho p' q E) as Hp.
      cbn [brace_depth]. rewrite Hk. lia. }
    destruct (Ascii.eqb c "{") eqn:Hopen.
    + eapply Hrec; [reflexivity | exact H | lia | lia].
    + destruct (Ascii.eqb c "}") eqn:Hclose.
      * destruct (depth - 1 =? 0) eqn:Hzero; [discriminate |].
        apply Z.eqb_neq in Hzero.
        eapply Hrec; [reflexivity | exact H | lia | lia].
      * eapply Hrec; [reflexivity | exact H | lia | lia].
Qed.

(** X22.  The text [create_world] hands to the JSON parser.  No brace in
    the stripped reply: the ValueError.  A stripped reply that starts with
    a brace goes to the parser whole, trailing text included.  Otherwise
    the text starts at the first brace of the stripped reply and stops at
    the first closing brace that balances it: the text closes exactly the
    braces it opens, ends with that closing brace, and no shorter piece of
    it, the empty one apart, is balanced.  Only when no piece from the
    first brace on is balanced does the text run to the end of the
    reply. *)
Theorem create_world_json_str_spec response :
  match create_world_json_str response with
  | None =>
      all_chars (fun c => negb (Ascii.eqb c "{")) (strip response) = true
  | Some json_str =>
      startswith json_str "{" = true /\
      (startswith (strip response) "{" = true -> json_str = strip response) /\
      (startswith (strip response) "{" = false ->
       exists before after,
         strip response = (before ++ json_str ++ after)%string /\
         all_chars (fun c => negb (Ascii.eqb c "{")) before = true /\
         ((brace_depth json_str = 0 /\
           ends_with_char "}" json_str = true /\
           forall p q, json_str = (p ++ q)%string ->
                       p <> EmptyString -> q <> EmptyString ->
                       0 < brace_depth p) \/
          (after = EmptyString /\
           forall p q, json_str = (p ++ q)%string ->
                       p <> EmptyString -> 0 < brace_depth p)))
  end.
Proof.
  unfold create_world_json_str. cbv zeta.
  destruct (startswith (strip response) "{") eqn:Hstart.
  - split; [exact Hstart |]. split; [reflexivity | discriminate].
  - pose proof (from_first_char_spec "{" (strip response)) as Hfirst.
    destruct (from_first_char "{" (strip response)) as [tail |]; [| exact Hfirst].
    destruct Hfirst as (before & r & E & Ht & Hb).
    destruct (up_to_closing_brace 0 tail) as [object |] eqn:Hobj.
    + destruct (up_to_closing_brace_spec _ _ _ Hobj) as (rest & Er & Hbal & Hend).
      split.
      * subst tail. destruct object as [| c o]; [discriminate Hend |].
        cbn in Er. injection Er as <- _. apply startswith_own_head.
      * split; [discriminate |]. intros _.
        exists before, rest. split; [now rewrite E, Er |].
        split; [exact Hb |]. left. split; [lia |]. split; [exact Hend |].
        intros p q Ep Hp Hq. subst tail.
        cbn [up_to_closing_brace] in Hobj.
        change (Ascii.eqb "{" "{") with true in Hobj. cbn match in Hobj.
        destruct (up_to_closing_brace (0 + 1) r) as [o |] eqn:Ho;
          [| discriminate Hobj].
        injection Hobj as <-.
        destruct p as [| x p']; [congruence |].
        cbn in Ep. injection Ep as <- Ep.
        pose proof (up_to_closing_brace_first r (0 + 1) o ltac:(lia) Ho p' q Ep Hq).
        cbn [brace_depth]. change (Ascii.eqb "{" "{") with true. cbn match. lia.
    + split; [subst tail; apply startswith_own_head |].
      split; [discriminate |]. intros _.
      exists before, EmptyString. split; [now rewrite E, append_empty_r |].
      split; [exact Hb |]. right. split; [reflexivity |].
      intros p q Ep Hp. subst tail.
      cbn [up_to_closing_brace] in Hobj.
      change (Ascii.eqb "{" "{") with true in Hobj. cbn match in Hobj.
      destruct (up_to_closing_brace (0 + 1) r) eqn:Ho; [discriminate Hobj |].
      destruct p as [| x p']; [congruence |].
      cbn in Ep. injection Ep as <- Ep.
      pose proof (up_to_closing_brace_never r (0 + 1) ltac:(lia) Ho p' q Ep).
      cbn [brace_depth]. change (Ascii.eqb "{" "{") with true. cbn match. lia.
Qed.







(** X24.  After the start location is set there is a current location and
    the registry knows it: the code returns, the registry of locations
    begins with the location whose name is now the current one, a lookup
    of the current location finds that record, and a registry that was not
    empty is left as it was. *)
Theorem initial_location_is_registered m :
  exists m' first rest,
    set_initial_location m = Val tt m' /\
    locations (world_data (self m')) = first :: rest /\
    current_location (self m') = l_name first /\
    find_by_name l_name (locations (world_data (self m')))
                 (current_location (self m')) = Some first /\
    (locations (world_data (self m)) <> [] ->
     world_data (self m') = world_data (self m)).
Proof.
  unfold set_initial_location. exec.
  destruct (locations (world_data (self m))) as [| first rest] eqn:Hloc; exec.
  - eexists. eexists. exists []. split; [reflexivity |]. exec. rewrite Hloc.
    repeat split; try reflexivity. intros Hne. now elim Hne.
  - eexists. exists first, rest. split; [reflexivity |]. exec.
    split; [exact Hloc |]. split; [reflexivity |].
    split; [| reflexivity].
    rewrite Hloc. unfold find_by_name. cbn [find].
    now rewrite String.eqb_refl.
Qed.

(** * Properties of the texts taken from a response *)

Lemma lstrip_head s :
  match lstrip s with
  | EmptyString => True
  | String c _ => is_space c = false
  end.
Proof.
  induction s as [| c r IH]; [exact I |].
  cbn [lstrip]. destruct (is_space c) eqn:Hc; [exact IH | exact Hc].
Qed.

Lemma rstrip_head s :
  match s with
  | EmptyString => True
  | String c _ => is_space c = false
  end ->
  match rstrip s with
  | EmptyString => True
  | String c _ => is_space c = false
  end.
Proof.
  destruct s as [| c r]; [auto |]. intros Hc. cbn [rstrip].
  destruct (rstrip r); [now rewrite Hc | exact Hc].
Qed.

Lemma rstrip_last s c :
  ends_with_char c (rstrip s) = true -> is_space c = false.
Proof.
  induction s as [| d r IH]; [discriminate |].
  cbn [rstrip]. destruct (rstrip r) as [| e t] eqn:Hr.
  - destruct (is_space d) eqn:Hd; [discriminate |].
    cbn. intros H. apply Ascii.eqb_eq in H. now subst.
  - intros H. apply IH. exact H.
Qed.

Lemma strip_trimmed s : trimmed (strip s).
Proof.
  unfold trimmed, strip. split.
  - apply rstrip_head. apply lstrip_head.
  - intros c. apply rstrip_last.
Qed.

Lemma all_chars_lstrip p s : all_chars p s = true -> all_chars p (lstrip s) = true.
Proof.
  induction s as [| c r IH]; [auto |].
  cbn [lstrip]. destruct (is_space c); [| auto].
  cbn [all_chars]. intros H. apply andb_prop in H. now apply IH.
Qed.

Lemma all_chars_rstrip p s : all_chars p s = true -> all_chars p (rstrip s) = true.
Proof.
  induction s as [| c r IH]; [auto |].
  cbn [all_chars rstrip]. intros H. apply andb_prop in H. destruct H as [Hc Hr].
  specialize (IH Hr). destruct (rstrip r) as [| d t].
  - destruct (is_space c); [reflexivity | cbn; now rewrite Hc].
  - cbn [all_chars] in *. now rewrite Hc, IH.
Qed.

Lemma all_chars_rev_acc p s : forall acc,
  all_chars p acc = true -> all_chars p s = true ->
  all_chars p (rev_acc acc s) = true.
Proof.
  induction s as [| c r IH]; intros acc Ha Hs; [exact Ha |].
  cbn [all_chars rev_acc] in *. apply andb_prop in Hs. destruct Hs as [Hc Hr].
  apply IH; [cbn; now rewrite Hc, Ha | exact Hr].
Qed.

Lemma split_line_head s : forall cur,
  all_chars (fun c => negb (Ascii.eqb c "010")) cur = true ->
  all_chars (fun c => negb (Ascii.eqb c "010")) (hd "" (split_go nl O cur s)) = true.
Proof.
  induction s as [| c r IH]; intros cur Hcur.
  - cbn. apply all_chars_rev_acc; [reflexivity | exact Hcur].
  - cbn [split_go]. destruct (String.prefix nl (String c r)) eqn:Hp.
    + cbn [hd]. apply all_chars_rev_acc; [reflexivity | exact Hcur].
    + apply IH. cbn [all_chars]. rewrite Hcur, andb_true_r.
      unfold nl in Hp. cbn [String.prefix] in Hp.
      destruct (ascii_dec "010" c) as [<- | Hne].
      * now destruct r.
      * apply negb_true_iff. apply Ascii.eqb_neq. congruence.
Qed.

(** X25.  What the interpreter passes on is clean text.  The payload of a
    tag, whatever follows the tag in the response, is a single line (it
    holds no line break) that neither begins nor ends with white space;
    and the text shown to the player neither begins nor ends with white
    space. *)
Theorem payload_is_one_trimmed_line parts text :
  all_chars (fun c => negb (Ascii.eqb c "010")) (payload parts) = true /\
  trimmed (payload parts) /\
  trimmed (remove_tags text).
Proof.
  unfold payload, remove_tags. split; [| split; apply strip_trimmed].
  unfold strip at 1. apply all_chars_rstrip, all_chars_lstrip.
  unfold split. now apply split_line_head.
Qed.

(** * Properties of the loop *)

#[export] Instance turn_grows_preorder : Preorder turn_grows.
Proof. split; unfold turn_grows; intros; lia. Qed.

Ltac turn_leaf :=
  idtac;
  lazymatch goal with
  | |- keeps _ (add_to_knowledge_base _) =>
      apply keeps_add_to_knowledge_base; intros; unfold turn_grows; cbn; lia
  | |- turn_grows _ _ => unfold turn_grows; cbn; lia
  end.

Lemma game_loop_step_turn_grows rand llm stdin ap sp :
  keeps turn_grows (game_loop_step rand llm stdin ap sp).
Proof. unfold_ops. keeps_walk turn_leaf. Qed.

(** X26.  The turn counter only goes up: from a new game it is never
    negative in a state the loop reaches, and no round, returned or raised,
    lowers it.  As a result an encounter can always be opened there:
    [start_combat] returns for every name, the range of the difficulty
    never being empty. *)
Theorem turn_counter_never_goes_back rand llm stdin ap sp name w loc m0 m :
  self m0 = new_game name w loc ->
  reachable rand llm stdin ap sp m0 m ->
  0 <= turn_count (self m) /\
  turn_count (self m)
  <= turn_count (self (final (game_loop_step rand llm stdin ap sp m))) /\
  forall enemy_name, returned (start_combat rand enemy_name m) = true.
Proof.
  intros Hnew Hreach.
  assert (Hm : 0 <= turn_count (self m)).
  { induction Hreach as [| m1 m2 _ IH Hstep]; [now rewrite Hnew |].
    pose proof (game_loop_step_turn_grows rand llm stdin ap sp m1) as K.
    rewrite Hstep in K. unfold turn_grows in K. cbn [final] in K. lia. }
  split; [exact Hm |].
  split; [apply (game_loop_step_turn_grows rand llm stdin ap sp m) |].
  intros enemy_name. unfold start_combat, randint. exec.
  destruct (find_by_name e_name (enemies (world_data (self m))) enemy_name).
  - exec. log_step. exec. reflexivity.
  - assert (Hle : (1 <=? Z.min 10 (turn_count (self m) / 5 + 1)) = true)
      by (apply Z.leb_le; Z.div_mod_to_equations; lia).
    rewrite Hle. exec. log_step. exec. reflexivity.
Qed.

Lemma turn_counter_never_goes_back_witness :
  returned (start_combat (draws []) "Shade" (boot demo_game)) = true.
Proof.
  destruct (turn_counter_never_goes_back (draws []) (model_says "") (typed [])
              plain_prompt "" "Adventurer" demo_world "Starting Village"
              (boot demo_game) (boot demo_game) eq_refl
              (reach_start _ _ _ _ _ _))
    as (_ & _ & Hret).
  apply Hret.
Defined.

(** X27.  The menu words of exploration cost nothing: on "help", "status",
    "inventory", "history" and their short forms, in any case,
    [exploration_turn] returns with the object as it was, the turn counter
    included, without asking the model and without a random word; on
    "quit", "exit" or "q" it raises [SystemExit] with code 0, the object
    as it was. *)
Theorem menu_words_cost_nothing rand llm stdin ap sp m :
  let action := lower (stdin (stdin_pos m)) in
  (in_list action ["quit"; "exit"; "q"] = false ->
   in_list action ["help"; "h"; "?"; "status"; "stats"; "stat";
                   "inventory"; "inv"; "i"; "history"; "events"; "kb"] = true ->
   exists m',
     exploration_turn rand llm stdin ap sp m = Val tt m' /\
     self m' = self m /\ llm_pos m' = llm_pos m /\ rand_pos m' = rand_pos m) /\
  (in_list action ["quit"; "exit"; "q"] = true ->
   exists m',
     exploration_turn rand llm stdin ap sp m = Exn (SystemExit 0) m' /\
     self m' = self m /\ llm_pos m' = llm_pos m).
Proof.
  cbv zeta. split.
  - intros Hquit Hmenu.
    change ["help"; "h"; "?"; "status"; "stats"; "stat";
            "inventory"; "inv"; "i"; "history"; "events"; "kb"]
      with (["help"; "h"; "?"] ++ ["status"; "stats"; "stat"]
            ++ ["inventory"; "inv"; "i"] ++ ["history"; "events"; "kb"])%list
      in Hmenu.
    unfold in_list in Hmenu. rewrite !existsb_app in Hmenu.
    fold (in_list (lower (stdin (stdin_pos m))) ["help"; "h"; "?"]) in Hmenu.
    fold (in_list (lower (stdin (stdin_pos m))) ["status"; "stats"; "stat"]) in Hmenu.
    fold (in_list (lower (stdin (stdin_pos m))) ["inventory"; "inv"; "i"]) in Hmenu.
    fold (in_list (lower (stdin (stdin_pos m))) ["history"; "events"; "kb"]) in Hmenu.
    unfold exploration_turn, show_screen. exec. rewrite Hquit. exec.
    destruct (in_list _ ["help"; "h"; "?"]); [exec; eexists; repeat split |].
    destruct (in_list _ ["status"; "stats"; "stat"]); [exec; eexists; repeat split |].
    destruct (in_list _ ["inventory"; "inv"; "i"]); [exec; eexists; repeat split |].
    destruct (in_list _ ["history"; "events"; "kb"]); [exec; eexists; repeat split |].
    discriminate Hmenu.
  - intros Hquit. unfold exploration_turn, quit_game. exec. rewrite Hquit. exec.
    eexists. repeat split.
Qed.

Lemma menu_words_cost_nothing_witness :
  exists m',
    exploration_turn (draws []) (model_says "") (typed ["HELP"; ""]) plain_prompt ""
                     (boot demo_game) = Val tt m' /\
    self m' = demo_game.
Proof.
  destruct (menu_words_cost_nothing (draws []) (model_says "") (typed ["HELP"; ""])
              plain_prompt "" (boot demo_game))
    as [Hmenu _].
  destruct (Hmenu eq_refl eq_refl) as (m' & Hrun & Hself & _).
  exists m'. split; assumption.
Defined.
